(** * heredity.py: exact inference by enumeration over a family's genes

    A shallow embedding of [WEEK2/heredity/heredity.py] and the properties of
    its inference engine: [joint_probability], [update], [normalize],
    [powerset] and the enumeration loop of [main].

    Modelling choices.
    - Probabilities are Python floats in the source.  They are embedded as
      exact rationals ([Qc], canonical fractions with Leibniz equality), so
      every equation of the exact model is an equation of exact arithmetic,
      without rounding or underflow.  The module [Binary64] has the same
      functions over binary64 numbers, for the places where rounding shows.
      The integer literals [0] and [1] that seed the accumulators are the
      rationals 0 and 1.
    - [x / y] raises [ZeroDivisionError] in Python when [y] is zero, for
      floats and integers alike; [truediv] returns the exception as a value.
    - A [dict] is an association list in insertion order with unique keys.
    - A [set] of names is a list of its elements.  The order in which a set
      is iterated is not fixed by Python; the enumeration loop takes it as a
      parameter [set_iter] that may permute the elements in any way.
    - Opening and parsing the CSV file and printing are not modelled:
      [load_data] starts from the rows the reader yields, [main] from the
      loaded [people], and [main] returns the normalized [probabilities]. *)

From Stdlib Require Import List String Bool Arith Lia ZArith QArith Qcanon.
From Stdlib Require Import Permutation.
From Stdlib Require PrimFloat.
Import ListNotations.

Local Open Scope Qc_scope.

(** ** Numbers *)

Abbreviation num := Qc.

(** A decimal literal of the source, read as the exact fraction it denotes. *)
Definition lit (q : Q) : num := Q2Qc q.

(** ** Exceptions *)

Inductive exception : Type :=
| ZeroDivisionError
| Raised (msg : string).

Inductive result (A : Type) : Type :=
| Ok (a : A)
| Raise (e : exception).

Arguments Ok {A} a.
Arguments Raise {A} e.

Definition bind {A B : Type} (r : result A) (k : A -> result B) : result B :=
  match r with
  | Ok a => k a
  | Raise e => Raise e
  end.

Notation "x <- r ;; k" := (bind r (fun x => k))
  (at level 61, r at next level, right associativity).

(** [x / y] of Python. *)
Definition truediv (x y : num) : result num :=
  if Qc_eq_bool y 0 then Raise ZeroDivisionError else Ok (x / y).

(** ** Dictionaries and sets *)

Definition dict (V : Type) : Type := list (string * V).

Definition keys {V : Type} (d : dict V) : list string := map fst d.

Fixpoint dict_get {V : Type} (d : dict V) (k : string) : option V :=
  match d with
  | [] => None
  | (k', v) :: d' => if String.eqb k k' then Some v else dict_get d' k
  end.

(** [d[k] = v]: an existing key keeps its place, a new key goes last. *)
Fixpoint dict_set {V : Type} (d : dict V) (k : string) (v : V) : dict V :=
  match d with
  | [] => [(k, v)]
  | (k', v') :: d' =>
      if String.eqb k k' then (k', v) :: d' else (k', v') :: dict_set d' k v
  end.

(** [d[k]] where the key was stored before; Python raises [KeyError] on a
    missing key, which no lookup of this program reaches (see
    [parent_table_mother], [parent_table_father] and [names_have_entries]),
    and [missing] stands for that case. *)
Definition getitem {V : Type} (d : dict V) (k : string) (missing : V) : V :=
  match dict_get d k with
  | Some v => v
  | None => missing
  end.

Definition pyset : Type := list string.

(** [x in s] *)
Definition mem (x : string) (s : pyset) : bool := existsb (String.eqb x) s.

(** [s - t] *)
Definition set_diff (s t : pyset) : pyset :=
  filter (fun x => negb (mem x t)) s.

(** ** The model's tables: [PROBS] *)

(** The tables are indexed by the gene counts 0, 1 and 2.  Another key is a
    [KeyError] in Python; [person_gene_count] yields no other (see
    [person_gene_count_range]), and the last case of each table, and of the
    accessors [gene_at] and [gene_add] below, stands for it. *)

Definition PROBS_gene (g : nat) : num :=
  match g with
  | 2%nat => lit 0.01
  | 1%nat => lit 0.03
  | 0%nat => lit 0.96
  | _ => 0
  end.

Definition PROBS_trait (g : nat) (t : bool) : num :=
  match g, t with
  | 2%nat, true => lit 0.65
  | 2%nat, false => lit 0.35
  | 1%nat, true => lit 0.56
  | 1%nat, false => lit 0.44
  | 0%nat, true => lit 0.01
  | 0%nat, false => lit 0.99
  | _, _ => 0
  end.

Definition PROBS_mutation : num := lit 0.01.

(** ** The family *)

(** One row of the data: [mother] and [father] are [None] when blank, [trait]
    is [None] when unknown. *)
Record person : Type := mkPerson {
  name : string;
  mother : option string;
  father : option string;
  trait : option bool
}.

Definition people_t : Type := dict person.

(** ** The belief state: [probabilities] *)

(** [{2: _, 1: _, 0: _}], in the order of the dictionary. *)
Record gene_dist : Type := mkGene { gene2 : num; gene1 : num; gene0 : num }.

(** [{True: _, False: _}] *)
Record trait_dist : Type := mkTrait { trait_true : num; trait_false : num }.

(** [{"gene": _, "trait": _}] *)
Record distribution : Type := mkDist {
  gene : gene_dist;
  trait_d : trait_dist
}.

Definition probabilities_t : Type := dict distribution.

Definition gene_at (d : gene_dist) (g : nat) : num :=
  match g with
  | 2%nat => gene2 d
  | 1%nat => gene1 d
  | _ => gene0 d
  end.

Definition trait_at (d : trait_dist) (t : bool) : num :=
  if t then trait_true d else trait_false d.

(** [d[g] += p] *)
Definition gene_add (d : gene_dist) (g : nat) (p : num) : gene_dist :=
  match g with
  | 2%nat => mkGene (gene2 d + p) (gene1 d) (gene0 d)
  | 1%nat => mkGene (gene2 d) (gene1 d + p) (gene0 d)
  | _ => mkGene (gene2 d) (gene1 d) (gene0 d + p)
  end.

(** [d[t] += p] *)
Definition trait_add (d : trait_dist) (t : bool) (p : num) : trait_dist :=
  if t then mkTrait (trait_true d + p) (trait_false d)
  else mkTrait (trait_true d) (trait_false d + p).

(** [sum(d.values())]: Python's [sum] starts from 0 and adds left to right. *)
Definition gene_sum (d : gene_dist) : num := 0 + gene2 d + gene1 d + gene0 d.
Definition trait_sum (d : trait_dist) : num := 0 + trait_true d + trait_false d.

(** ** [joint_probability] *)

(** [1 if person in one_gene else 2 if person in two_genes else 0] *)
Definition person_gene_count (one_gene two_genes : pyset) (person : string) : nat :=
  if mem person one_gene then 1%nat
  else if mem person two_genes then 2%nat
  else 0%nat.

(** The inner loop [for parent_name in [mother_name, father_name]], filling
    the dictionary [parent_gene_inheritance_probability]. *)
Definition parent_gene_inheritance_probability
    (one_gene two_genes : pyset) (parents : list string) : dict num :=
  fold_left
    (fun table parent_name =>
       if mem parent_name one_gene then dict_set table parent_name (lit 0.5)
       else if mem parent_name two_genes then
         dict_set table parent_name (1 - PROBS_mutation)
       else dict_set table parent_name PROBS_mutation)
    parents [].

(** The factor the branch on [mother] and [father] multiplies in. *)
Definition gene_factor (one_gene two_genes : pyset) (info : person)
    (person_gene_count : nat) : num :=
  match mother info, father info with
  | Some mother_name, Some father_name =>
      let table :=
        parent_gene_inheritance_probability one_gene two_genes
          [mother_name; father_name] in
      let pm := getitem table mother_name 0 in
      let pf := getitem table father_name 0 in
      if Nat.eqb person_gene_count 1 then pm * (1 - pf) + (1 - pm) * pf
      else if Nat.eqb person_gene_count 2 then pm * pf
      else (1 - pm) * (1 - pf)
  | _, _ => PROBS_gene person_gene_count
  end.

(** One round of [for person in people]. *)
Definition joint_step (one_gene two_genes have_trait : pyset)
    (joint_probability_result : num) (entry : string * person) : num :=
  let person := fst entry in
  let person_gene_count := person_gene_count one_gene two_genes person in
  let person_has_trait := mem person have_trait in
  let joint_probability_result :=
    joint_probability_result
    * gene_factor one_gene two_genes (snd entry) person_gene_count in
  joint_probability_result * PROBS_trait person_gene_count person_has_trait.

Definition joint_probability (people : people_t)
    (one_gene two_genes have_trait : pyset) : num :=
  fold_left (joint_step one_gene two_genes have_trait) people 1.

(** ** [update] *)

Definition update_person (one_gene two_genes have_trait : pyset) (p : num)
    (entry : string * distribution) : string * distribution :=
  let person := fst entry in
  let person_gene_count := person_gene_count one_gene two_genes person in
  let person_has_trait := mem person have_trait in
  (person,
   mkDist (gene_add (gene (snd entry)) person_gene_count p)
          (trait_add (trait_d (snd entry)) person_has_trait p)).

Definition update (probabilities : probabilities_t)
    (one_gene two_genes have_trait : pyset) (p : num) : probabilities_t :=
  map (update_person one_gene two_genes have_trait p) probabilities.

(** ** [normalize] *)

Definition normalize_gene (d : gene_dist) : result gene_dist :=
  let statistic_probability_sum := gene_sum d in
  g2 <- truediv (gene2 d) statistic_probability_sum ;;
  g1 <- truediv (gene1 d) statistic_probability_sum ;;
  g0 <- truediv (gene0 d) statistic_probability_sum ;;
  Ok (mkGene g2 g1 g0).

Definition normalize_trait (d : trait_dist) : result trait_dist :=
  let statistic_probability_sum := trait_sum d in
  tt <- truediv (trait_true d) statistic_probability_sum ;;
  tf <- truediv (trait_false d) statistic_probability_sum ;;
  Ok (mkTrait tt tf).

(** [for statistic in ["gene", "trait"]] for one person. *)
Definition normalize_person (d : distribution) : result distribution :=
  g <- normalize_gene (gene d) ;;
  t <- normalize_trait (trait_d d) ;;
  Ok (mkDist g t).

(** The source normalizes in place and returns nothing; the model returns the
    normalized dictionary, or the exception that ends the loop. *)
Fixpoint normalize (probabilities : probabilities_t) : result probabilities_t :=
  match probabilities with
  | [] => Ok []
  | (person, d) :: rest =>
      d' <- normalize_person d ;;
      rest' <- normalize rest ;;
      Ok ((person, d') :: rest')
  end.

(** ** [powerset] *)

(** [itertools.combinations(s, r)]: the sublists of length [r], in the
    lexicographic order of the positions. *)
Fixpoint combinations {A : Type} (s : list A) (r : nat) : list (list A) :=
  match r, s with
  | O, _ => [[]]
  | S _, [] => []
  | S r', x :: s' => map (cons x) (combinations s' r') ++ combinations s' r
  end.

(** ** The enumeration loop of [main] *)

(** [probabilities = {person: {"gene": {2: 0, 1: 0, 0: 0},
    "trait": {True: 0, False: 0}} for person in people}] *)
Definition initial (people : people_t) : probabilities_t :=
  map (fun entry => (fst entry, mkDist (mkGene 0 0 0) (mkTrait 0 0))) people.

Section Enumeration.

(** [list(s)]: the order in which Python iterates the set built from the
    elements [s]. *)
Variable set_iter : pyset -> list string.

Definition powerset (s : pyset) : list pyset :=
  let s := set_iter s in
  flat_map (combinations s) (seq 0%nat (List.length s + 1)%nat).

(** The generator under [any(...)]. *)
Definition fails_evidence (people : people_t) (names have_trait : pyset) : bool :=
  existsb
    (fun person =>
       match dict_get people person with
       | Some info =>
           match trait info with
           | Some t => negb (Bool.eqb t (mem person have_trait))
           | None => false
           end
       | None => false
       end)
    (set_iter names).

(** The three nested [for] loops, with the [continue] on failed evidence. *)
Definition accumulate (people : people_t) : probabilities_t :=
  let names := keys people in
  fold_left
    (fun probabilities have_trait =>
       if fails_evidence people names have_trait then probabilities
       else
         fold_left
           (fun probabilities one_gene =>
              fold_left
                (fun probabilities two_genes =>
                   let p :=
                     joint_probability people one_gene two_genes have_trait in
                   update probabilities one_gene two_genes have_trait p)
                (powerset (set_diff names one_gene)) probabilities)
           (powerset names) probabilities)
    (powerset names) (initial people).

Definition main (people : people_t) : result probabilities_t :=
  normalize (accumulate people).

(** The calls [joint_probability(people, one_gene, two_genes, have_trait)]
    the loop makes, in order: the assignments that are scored. *)
Definition scored (people : people_t) : list (pyset * pyset * pyset) :=
  let names := keys people in
  flat_map
    (fun have_trait =>
       if fails_evidence people names have_trait then []
       else
         flat_map
           (fun one_gene =>
              map (fun two_genes => (one_gene, two_genes, have_trait))
                  (powerset (set_diff names one_gene)))
           (powerset names))
    (powerset names).

End Enumeration.

(** ** What the specification says, in its own words *)

(** "parent has 1 copy -> 0.5; 2 copies -> 1 - mutation rate; 0 copies ->
    mutation rate" *)
Definition spec_transmit (parent_count : nat) : num :=
  match parent_count with
  | 1%nat => lit 0.5
  | 2%nat => 1 - PROBS_mutation
  | _ => PROBS_mutation
  end.

(** "child count 0: (1 - m)(1 - f); child count 1: m(1 - f) + (1 - m)f;
    child count 2: m f" *)
Definition spec_inherit (mother_transmit father_transmit : num)
    (child_count : nat) : num :=
  match child_count with
  | 0%nat => (1 - mother_transmit) * (1 - father_transmit)
  | 1%nat =>
      mother_transmit * (1 - father_transmit)
      + (1 - mother_transmit) * father_transmit
  | _ => mother_transmit * father_transmit
  end.

(** "a founder (no parents in the model)" *)
Definition spec_founder (info : person) : bool :=
  match mother info, father info with
  | None, None => true
  | _, _ => false
  end.

(** The gene count of a parent reference in the assignment; [None in s] is
    [False] in Python, so an absent parent counts as zero copies. *)
Definition parent_count (one_gene two_genes : pyset) (parent : option string) : nat :=
  match parent with
  | Some parent_name => person_gene_count one_gene two_genes parent_name
  | None => 0%nat
  end.

(** "Prior gene-count term" for a founder, "inherited gene-count term"
    otherwise. *)
Definition spec_gene_term (one_gene two_genes : pyset) (info : person)
    (g : nat) : num :=
  if spec_founder info then PROBS_gene g
  else
    spec_inherit
      (spec_transmit (parent_count one_gene two_genes (mother info)))
      (spec_transmit (parent_count one_gene two_genes (father info)))
      g.

Definition product (l : list num) : num := fold_right Qcmult 1 l.

(** "the product over all individuals" of "its (prior-or-inherited) gene
    term and its trait term" *)
Definition spec_joint (people : people_t)
    (one_gene two_genes have_trait : pyset) : num :=
  product
    (map
       (fun entry =>
          let g := person_gene_count one_gene two_genes (fst entry) in
          spec_gene_term one_gene two_genes (snd entry) g
          * PROBS_trait g (mem (fst entry) have_trait))
       people).

(** "parent references are either both absent or both present" *)
Definition parents_paired (info : person) : Prop :=
  mother info = None <-> father info = None.

(** [x] is within [eps] of [y]. *)
Definition within (eps x y : num) : Prop := y - eps <= x /\ x <= y + eps.

(** Exchanging the two parent references of one row. *)
Definition swap_parents (info : person) : person :=
  mkPerson (name info) (father info) (mother info) (trait info).

(** Exchanging them for the children that [pick] selects. *)
Definition swap_some (pick : string -> bool) (people : people_t) : people_t :=
  map (fun entry =>
         (fst entry, if pick (fst entry) then swap_parents (snd entry)
                     else snd entry))
      people.

(** The mass a list of scores adds up to. *)
Definition total (ps : list num) : num := fold_right Qcplus 0 ps.

(** A run of [update] calls from a starting belief state. *)
Definition run_updates (calls : list (pyset * pyset * pyset * num))
    (probabilities : probabilities_t) : probabilities_t :=
  fold_left
    (fun probabilities call =>
       match call with
       | (one_gene, two_genes, have_trait, p) =>
           update probabilities one_gene two_genes have_trait p
       end)
    calls probabilities.

(** ** Views of the program used by the statements *)

Definition parent_value (one_gene two_genes : pyset) (parent_name : string) : num :=
  if mem parent_name one_gene then lit 0.5
  else if mem parent_name two_genes then 1 - PROBS_mutation
  else PROBS_mutation.

(** One call of [update] seen from one person: [p] goes to the bucket of
    one gene count and to the bucket of one trait value, and every other
    bucket keeps its value. *)
Definition adds_to_one_bucket_each (p : num) (d d' : distribution) : Prop :=
  exists (g : nat) (t : bool),
    (g <= 2)%nat
    /\ (forall g', (g' <= 2)%nat ->
          gene_at (gene d') g'
          = if Nat.eqb g' g then gene_at (gene d) g' + p
            else gene_at (gene d) g')
    /\ (forall t',
          trait_at (trait_d d') t'
          = if Bool.eqb t' t then trait_at (trait_d d) t' + p
            else trait_at (trait_d d) t').

(** Both sums of every person are [mass]. *)
Definition balanced (mass : num) (probabilities : probabilities_t) : Prop :=
  Forall
    (fun entry =>
       gene_sum (gene (snd entry)) = mass
       /\ trait_sum (trait_d (snd entry)) = mass)
    probabilities.

(** What [normalize] makes of one person's pair of distributions. *)
Definition normalized (d : distribution) : distribution :=
  mkDist
    (mkGene (gene2 (gene d) / gene_sum (gene d))
            (gene1 (gene d) / gene_sum (gene d))
            (gene0 (gene d) / gene_sum (gene d)))
    (mkTrait (trait_true (trait_d d) / trait_sum (trait_d d))
             (trait_false (trait_d d) / trait_sum (trait_d d))).

Definition nonzero_sums (d : distribution) : Prop :=
  gene_sum (gene d) <> 0 /\ trait_sum (trait_d d) <> 0.

(** The designated error of the specification: one the program raises
    itself, with its own message, as opposed to the interpreter's
    [ZeroDivisionError]. *)
Definition spec_unsatisfiable_evidence_error (e : exception) : Prop :=
  exists msg, e = Raised msg.

(** The score of an assignment, as [main] hands it to [update]. *)
Definition score (people : people_t) (a : pyset * pyset * pyset)
    : pyset * pyset * pyset * num :=
  match a with
  | (one_gene, two_genes, have_trait) =>
      (one_gene, two_genes, have_trait,
       joint_probability people one_gene two_genes have_trait)
  end.

(** The evidence on [have_trait] is contradicted: somebody's known trait
    value differs from their membership in the set. *)
Definition contradicts_evidence (people : people_t) (have_trait : pyset) : Prop :=
  exists person info t,
    dict_get people person = Some info
    /\ trait info = Some t
    /\ t <> mem person have_trait.

(** What a run of [update] calls does to the distributions of [who]. *)
Definition person_run (who : string)
    (calls : list (pyset * pyset * pyset * num)) (d : distribution)
    : distribution :=
  fold_left
    (fun d call =>
       snd (update_person (fst (fst (fst call))) (snd (fst (fst call)))
              (snd (fst call)) (snd call) (who, d)))
    calls d.

(** The mass [main] has accumulated when it calls [normalize]. *)
Definition mass (set_iter : pyset -> list string) (people : people_t) : num :=
  total (map snd (map (score people) (scored set_iter people))).

(** Harry is the child of Lily and James; James shows the trait, Lily does
    not, Harry is not known. *)
Definition harry : person :=
  mkPerson "Harry" (Some "Lily"%string) (Some "James"%string) None.
Definition james : person := mkPerson "James" None None (Some true).
Definition lily : person := mkPerson "Lily" None None (Some false).

Definition family0 : people_t :=
  [("Harry"%string, harry); ("James"%string, james); ("Lily"%string, lily)].

(** Python iterating a set in the order the elements went in. *)
Definition insertion_order (s : pyset) : list string := s.

(** A founder nothing is known about. *)
Definition arthur : person := mkPerson "Arthur" None None None.

Definition zero_distribution : distribution :=
  mkDist (mkGene 0 0 0) (mkTrait 0 0).

Definition sample_distribution : distribution :=
  mkDist (mkGene (lit 0.1) (lit 0.2) (lit 0.1)) (mkTrait (lit 0.3) (lit 0.1)).

(** ** [load_data] *)

(** One row as [csv.DictReader] yields it: the four fields the file is
    assumed to have, each a string (blank when the cell is empty).  Opening
    the file and splitting it into rows is the library's work and is not
    modelled: [load_data] starts from the rows. *)
Record row : Type := mkRow {
  row_name : string;
  row_mother : string;
  row_father : string;
  row_trait : string
}.

(** [s or None]: the empty string is false in Python. *)
Definition or_none (s : string) : option string :=
  if String.eqb s "" then None else Some s.

(** [True if row["trait"] == "1" else False if row["trait"] == "0" else None] *)
Definition trait_of (s : string) : option bool :=
  if String.eqb s "1" then Some true
  else if String.eqb s "0" then Some false
  else None.

(** The dictionary stored for one row. *)
Definition person_of_row (r : row) : person :=
  mkPerson (row_name r) (or_none (row_mother r)) (or_none (row_father r))
    (trait_of (row_trait r)).

(** [data[name] = {...}] for every row, from the empty dictionary. *)
Definition load_data (rows : list row) : people_t :=
  fold_left (fun data r => dict_set data (row_name r) (person_of_row r))
    rows [].

(** ** Further views of the program used by the statements *)

(** [t] keeps some of the elements of [l], in their order. *)
Inductive subseq {A : Type} : list A -> list A -> Prop :=
| subseq_nil : subseq [] []
| subseq_take (x : A) (t l : list A) : subseq t l -> subseq (x :: t) (x :: l)
| subseq_skip (x : A) (t l : list A) : subseq t l -> subseq t (x :: l).

(** The number of sublists of [s] with fewer than [m] elements that
    [combinations] lists. *)
Definition count_below {A : Type} (s : list A) (m : nat) : nat :=
  list_sum (map (fun r => List.length (combinations s r)) (seq 0%nat m)).

(** Two sets with the same members. *)
Definition same_members (s t : pyset) : Prop := forall x, mem x s = mem x t.

(** What one round of [for person in people] multiplies the result by. *)
Definition row_factor (one_gene two_genes have_trait : pyset)
    (entry : string * person) : num :=
  let g := person_gene_count one_gene two_genes (fst entry) in
  gene_factor one_gene two_genes (snd entry) g
  * PROBS_trait g (mem (fst entry) have_trait).

(** The mass of the calls that give [who] the gene count [g]. *)
Definition gene_mass (who : string) (g : nat)
    (calls : list (pyset * pyset * pyset * num)) : num :=
  total
    (map snd
       (filter
          (fun call =>
             Nat.eqb
               (person_gene_count (fst (fst (fst call))) (snd (fst (fst call)))
                  who)
               g)
          calls)).

(** The mass of the calls that give [who] the trait value [t]. *)
Definition trait_mass (who : string) (t : bool)
    (calls : list (pyset * pyset * pyset * num)) : num :=
  total
    (map snd
       (filter (fun call => Bool.eqb (mem who (snd (fst call))) t) calls)).

(** Every bucket of a person multiplied by [c]. *)
Definition scale (c : num) (d : distribution) : distribution :=
  mkDist
    (mkGene (c * gene2 (gene d)) (c * gene1 (gene d)) (c * gene0 (gene d)))
    (mkTrait (c * trait_true (trait_d d)) (c * trait_false (trait_d d))).

Definition scale_all (c : num) (probabilities : probabilities_t)
    : probabilities_t :=
  map (fun entry => (fst entry, scale c (snd entry))) probabilities.

(** Every bucket of a person lies between [lo] and [hi]. *)
Definition buckets_within (lo hi : num) (d : distribution) : Prop :=
  (forall g, lo <= gene_at (gene d) g /\ gene_at (gene d) g <= hi)
  /\ (forall t, lo <= trait_at (trait_d d) t /\ trait_at (trait_d d) t <= hi).

(** No bucket of [d] is negative. *)
Definition nonneg_buckets (d : distribution) : Prop :=
  0 <= gene2 (gene d) /\ 0 <= gene1 (gene d) /\ 0 <= gene0 (gene d)
  /\ 0 <= trait_true (trait_d d) /\ 0 <= trait_false (trait_d d).

(** The members of [t] in the order they have in [s]. *)
Definition canon (s t : pyset) : pyset := filter (fun x => mem x t) s.

(** A quantity of an assignment that depends on the members of its three
    sets only. *)
Definition by_members (F : pyset * pyset * pyset -> num) : Prop :=
  forall o t h o' t' h',
    same_members o o' -> same_members t t' -> same_members h h' ->
    F (o, t, h) = F (o', t', h').

(** The last row of the file that carries the name [n]. *)
Definition last_row (rows : list row) (n : string) : option row :=
  find (fun r => String.eqb (row_name r) n) (rev rows).

(** Both parent cells of a row are blank, or neither is. *)
Definition row_paired (r : row) : Prop :=
  row_mother r = ""%string <-> row_father r = ""%string.

(** Python iterating a set from the last element that went in to the
    first. *)
Definition reverse_order (s : pyset) : list string := rev s.

(** Two [update] calls. *)
Definition calls0 : list (pyset * pyset * pyset * num) :=
  [(["Harry"%string], ["James"%string], ["James"%string], lit 0.25);
   ([], ["Harry"%string], ["Harry"%string; "James"%string], lit 0.5)].

(** Three rows of a file: Harry with both parents, James with the trait,
    and James once more, without. *)
Definition rows0 : list row :=
  [mkRow "Harry" "Lily" "James" "";
   mkRow "James" "" "" "1";
   mkRow "James" "" "" "0"]%string.

(** ** The program in binary64 *)

(** The same functions with Python's floats as they are, IEEE 754 binary64
    numbers ([PrimFloat.float], round to nearest even), for the places where
    rounding shows.  A decimal literal is the nearest binary64 number, as in
    Python; the integers [0] and [1] that seed the accumulators are [0.0]
    and [1.0], which add and multiply like them.  Sets, dictionaries, rows,
    [powerset] and the evidence check hold no numbers and are shared with
    the exact model. *)
Module Binary64.

Import PrimFloat.
#[local] Set Warnings "-inexact-float".
Local Open Scope float_scope.

(** [x / y] of Python: a zero divisor, of either sign, raises. *)
Definition truediv (x y : PrimFloat.float) : result PrimFloat.float :=
  if PrimFloat.eqb y 0 then Raise ZeroDivisionError else Ok (x / y).

Definition PROBS_gene (g : nat) : PrimFloat.float :=
  match g with
  | 2%nat => 0.01
  | 1%nat => 0.03
  | 0%nat => 0.96
  | _ => 0
  end.

Definition PROBS_trait (g : nat) (t : bool) : PrimFloat.float :=
  match g, t with
  | 2%nat, true => 0.65
  | 2%nat, false => 0.35
  | 1%nat, true => 0.56
  | 1%nat, false => 0.44
  | 0%nat, true => 0.01
  | 0%nat, false => 0.99
  | _, _ => 0
  end.

Definition PROBS_mutation : PrimFloat.float := 0.01.

Record gene_dist : Type := mkGene {
  gene2 : PrimFloat.float;
  gene1 : PrimFloat.float;
  gene0 : PrimFloat.float
}.

Record trait_dist : Type := mkTrait {
  trait_true : PrimFloat.float;
  trait_false : PrimFloat.float
}.

Record distribution : Type := mkDist {
  gene : gene_dist;
  trait_d : trait_dist
}.

Definition probabilities_t : Type := dict distribution.

Definition gene_add (d : gene_dist) (g : nat) (p : PrimFloat.float) : gene_dist :=
  match g with
  | 2%nat => mkGene (gene2 d + p) (gene1 d) (gene0 d)
  | 1%nat => mkGene (gene2 d) (gene1 d + p) (gene0 d)
  | _ => mkGene (gene2 d) (gene1 d) (gene0 d + p)
  end.

Definition trait_add (d : trait_dist) (t : bool) (p : PrimFloat.float) : trait_dist :=
  if t then mkTrait (trait_true d + p) (trait_false d)
  else mkTrait (trait_true d) (trait_false d + p).

Definition gene_sum (d : gene_dist) : PrimFloat.float :=
  0 + gene2 d + gene1 d + gene0 d.

Definition trait_sum (d : trait_dist) : PrimFloat.float :=
  0 + trait_true d + trait_false d.

Definition parent_gene_inheritance_probability
    (one_gene two_genes : pyset) (parents : list string) : dict PrimFloat.float :=
  fold_left
    (fun table parent_name =>
       if mem parent_name one_gene then dict_set table parent_name 0.5
       else if mem parent_name two_genes then
         dict_set table parent_name (1 - PROBS_mutation)
       else dict_set table parent_name PROBS_mutation)
    parents [].

Definition gene_factor (one_gene two_genes : pyset) (info : person)
    (person_gene_count : nat) : PrimFloat.float :=
  match mother info, father info with
  | Some mother_name, Some father_name =>
      let table :=
        parent_gene_inheritance_probability one_gene two_genes
          [mother_name; father_name] in
      let pm := getitem table mother_name 0 in
      let pf := getitem table father_name 0 in
      if Nat.eqb person_gene_count 1 then pm * (1 - pf) + (1 - pm) * pf
      else if Nat.eqb person_gene_count 2 then pm * pf
      else (1 - pm) * (1 - pf)
  | _, _ => PROBS_gene person_gene_count
  end.

Definition joint_step (one_gene two_genes have_trait : pyset)
    (joint_probability_result : PrimFloat.float) (entry : string * person)
    : PrimFloat.float :=
  let person := fst entry in
  let person_gene_count := person_gene_count one_gene two_genes person in
  let person_has_trait := mem person have_trait in
  let joint_probability_result :=
    joint_probability_result
    * gene_factor one_gene two_genes (snd entry) person_gene_count in
  joint_probability_result * PROBS_trait person_gene_count person_has_trait.

Definition joint_probability (people : people_t)
    (one_gene two_genes have_trait : pyset) : PrimFloat.float :=
  fold_left (joint_step one_gene two_genes have_trait) people 1.

Definition update_person (one_gene two_genes have_trait : pyset)
    (p : PrimFloat.float) (entry : string * distribution)
    : string * distribution :=
  let person := fst entry in
  let person_gene_count := person_gene_count one_gene two_genes person in
  let person_has_trait := mem person have_trait in
  (person,
   mkDist (gene_add (gene (snd entry)) person_gene_count p)
          (trait_add (trait_d (snd entry)) person_has_trait p)).

Definition update (probabilities : probabilities_t)
    (one_gene two_genes have_trait : pyset) (p : PrimFloat.float)
    : probabilities_t :=
  map (update_person one_gene two_genes have_trait p) probabilities.

Definition normalize_gene (d : gene_dist) : result gene_dist :=
  let statistic_probability_sum := gene_sum d in
  g2 <- truediv (gene2 d) statistic_probability_sum ;;
  g1 <- truediv (gene1 d) statistic_probability_sum ;;
  g0 <- truediv (gene0 d) statistic_probability_sum ;;
  Ok (mkGene g2 g1 g0).

Definition normalize_trait (d : trait_dist) : result trait_dist :=
  let statistic_probability_sum := trait_sum d in
  tt <- truediv (trait_true d) statistic_probability_sum ;;
  tf <- truediv (trait_false d) statistic_probability_sum ;;
  Ok (mkTrait tt tf).

Definition normalize_person (d : distribution) : result distribution :=
  g <- normalize_gene (gene d) ;;
  t <- normalize_trait (trait_d d) ;;
  Ok (mkDist g t).

Fixpoint normalize (probabilities : probabilities_t) : result probabilities_t :=
  match probabilities with
  | [] => Ok []
  | (person, d) :: rest =>
      d' <- normalize_person d ;;
      rest' <- normalize rest ;;
      Ok ((person, d') :: rest')
  end.

Definition initial (people : people_t) : probabilities_t :=
  map (fun entry => (fst entry, mkDist (mkGene 0 0 0) (mkTrait 0 0))) people.

Definition accumulate (set_iter : pyset -> list string) (people : people_t)
    : probabilities_t :=
  let names := keys people in
  fold_left
    (fun probabilities have_trait =>
       if fails_evidence set_iter people names have_trait then probabilities
       else
         fold_left
           (fun probabilities one_gene =>
              fold_left
                (fun probabilities two_genes =>
                   let p :=
                     joint_probability people one_gene two_genes have_trait in
                   update probabilities one_gene two_genes have_trait p)
                (powerset set_iter (set_diff names one_gene)) probabilities)
           (powerset set_iter names) probabilities)
    (powerset set_iter names) (initial people).

Definition main (set_iter : pyset -> list string) (people : people_t)
    : result probabilities_t :=
  normalize (accumulate set_iter people).

(** The score of an assignment, as [main] hands it to [update]. *)
Definition score (people : people_t) (a : pyset * pyset * pyset)
    : pyset * pyset * pyset * PrimFloat.float :=
  match a with
  | (one_gene, two_genes, have_trait) =>
      (one_gene, two_genes, have_trait,
       joint_probability people one_gene two_genes have_trait)
  end.

(** A run of [update] calls from a starting belief state. *)
Definition run_updates
    (calls : list (pyset * pyset * pyset * PrimFloat.float))
    (probabilities : probabilities_t) : probabilities_t :=
  fold_left
    (fun probabilities call =>
       match call with
       | (one_gene, two_genes, have_trait, p) =>
           update probabilities one_gene two_genes have_trait p
       end)
    calls probabilities.

(** [x] is within [eps] of [y]. *)
Definition within (eps x y : PrimFloat.float) : Prop :=
  PrimFloat.leb (PrimFloat.abs (x - y)) eps = true.

(** A little under three units in the last place of 0.03. *)
Definition rounding_bound : PrimFloat.float := 1e-17.

End Binary64.

(** * Properties *)

(** ** Arithmetic of [num] *)

Lemma truediv_nonzero (x y : num) : y <> 0 -> truediv x y = Ok (x / y).
Proof.
  intros Hy. unfold truediv, Qc_eq_bool.
  destruct (Qc_eq_dec y 0) as [E | _]; [contradiction | reflexivity].
Qed.

Lemma truediv_zero (x : num) : truediv x 0 = Raise ZeroDivisionError.
Proof.
  unfold truediv, Qc_eq_bool.
  destruct (Qc_eq_dec 0 0) as [_ | N]; [reflexivity | now elim N].
Qed.

Lemma Qc_this_mult (x y : num) : (this (x * y) == this x * this y)%Q.
Proof. change (this (x * y)) with (Qred (this x * this y)). apply Qred_correct. Qed.

Lemma Qc_this_plus (x y : num) : (this (x + y) == this x + this y)%Q.
Proof. change (this (x + y)) with (Qred (this x + this y)). apply Qred_correct. Qed.

Lemma Qcmult_pos (x y : num) : 0 < x -> 0 < y -> 0 < x * y.
Proof.
  unfold Qclt. intros Hx Hy. rewrite Qc_this_mult.
  now apply Qmult_lt_0_compat.
Qed.

Lemma Qcplus_pos_nonneg (x y : num) : 0 < x -> 0 <= y -> 0 < x + y.
Proof.
  unfold Qclt, Qcle. intros Hx Hy. rewrite Qc_this_plus.
  apply Qlt_le_trans with (this x + 0)%Q.
  - now rewrite Qplus_0_r.
  - apply Qplus_le_r. exact Hy.
Qed.

Lemma Qc_pos_nonzero (x : num) : 0 < x -> x <> 0.
Proof. intros H E. subst x. now apply (Qclt_not_eq 0 0). Qed.

(** ** Sets and dictionaries *)

Lemma mem_In (x : string) (s : pyset) : mem x s = true <-> In x s.
Proof.
  unfold mem. rewrite existsb_exists. split.
  - intros [y [Hy E]]. apply String.eqb_eq in E. now subst.
  - intros H. exists x. split; [exact H | apply String.eqb_refl].
Qed.

Lemma mem_false (x : string) (s : pyset) : mem x s = false <-> ~ In x s.
Proof.
  rewrite <- mem_In. destruct (mem x s); split; intros H; easy.
Qed.

Lemma mem_set_diff (x : string) (s t : pyset) :
  mem x (set_diff s t) = mem x s && negb (mem x t).
Proof.
  destruct (mem x s && negb (mem x t)) eqn:E.
  - apply andb_true_iff in E. destruct E as [Hs Ht].
    apply mem_In. unfold set_diff. apply filter_In.
    split; [now apply mem_In | exact Ht].
  - apply mem_false. intros H. unfold set_diff in H.
    apply filter_In in H. destruct H as [Hs Ht].
    apply mem_In in Hs. rewrite Hs, Ht in E. discriminate.
Qed.

Lemma dict_get_Some_In {V : Type} (d : dict V) (k : string) (v : V) :
  dict_get d k = Some v -> In (k, v) d.
Proof.
  induction d as [| [k' v'] d IH]; simpl; [easy |].
  destruct (String.eqb k k') eqn:E.
  - apply String.eqb_eq in E. intros H. inversion H; subst. now left.
  - intros H. right. now apply IH.
Qed.

(** Every name of the family has its row: the lookups [people[person]] of
    the evidence check never miss. *)
Lemma names_have_entries (people : people_t) (person : string) :
  In person (keys people) -> exists info, dict_get people person = Some info.
Proof.
  induction people as [| [k v] people IH]; simpl; [easy |].
  intros [E | H].
  - subst. rewrite String.eqb_refl. now exists v.
  - destruct (String.eqb person k); [now exists v | now apply IH].
Qed.

(** ** The parents' table *)

Lemma parent_value_transmit (one_gene two_genes : pyset) (parent_name : string) :
  parent_value one_gene two_genes parent_name
  = spec_transmit (person_gene_count one_gene two_genes parent_name).
Proof.
  unfold parent_value, person_gene_count.
  destruct (mem parent_name one_gene); [reflexivity |].
  destruct (mem parent_name two_genes); reflexivity.
Qed.

Lemma parent_table_unfold (one_gene two_genes : pyset) (m f : string) :
  parent_gene_inheritance_probability one_gene two_genes [m; f]
  = dict_set (dict_set [] m (parent_value one_gene two_genes m))
             f (parent_value one_gene two_genes f).
Proof.
  unfold parent_gene_inheritance_probability, parent_value. simpl.
  destruct (mem m one_gene), (mem m two_genes),
    (mem f one_gene), (mem f two_genes); reflexivity.
Qed.

(** The lookup of the mother's entry finds what the loop stored for her. *)
Lemma parent_table_mother (one_gene two_genes : pyset) (m f : string) :
  dict_get (parent_gene_inheritance_probability one_gene two_genes [m; f]) m
  = Some (parent_value one_gene two_genes m).
Proof.
  rewrite parent_table_unfold. simpl.
  destruct (String.eqb f m) eqn:E; simpl.
  - apply String.eqb_eq in E. subst f. now rewrite String.eqb_refl.
  - now rewrite String.eqb_refl.
Qed.

(** And so does the lookup of the father's. *)
Lemma parent_table_father (one_gene two_genes : pyset) (m f : string) :
  dict_get (parent_gene_inheritance_probability one_gene two_genes [m; f]) f
  = Some (parent_value one_gene two_genes f).
Proof.
  rewrite parent_table_unfold. simpl.
  destruct (String.eqb f m) eqn:E; simpl.
  - now rewrite E.
  - rewrite E. now rewrite String.eqb_refl.
Qed.

Lemma person_gene_count_range (one_gene two_genes : pyset) (person : string) :
  (person_gene_count one_gene two_genes person <= 2)%nat.
Proof.
  unfold person_gene_count.
  destruct (mem person one_gene); [lia |].
  destruct (mem person two_genes); lia.
Qed.

Lemma gene_factor_parents (one_gene two_genes : pyset) (info : person)
    (m f : string) (g : nat) :
  mother info = Some m -> father info = Some f ->
  gene_factor one_gene two_genes info g
  = spec_inherit
      (spec_transmit (person_gene_count one_gene two_genes m))
      (spec_transmit (person_gene_count one_gene two_genes f))
      (if Nat.leb g 2 then g else 0%nat).
Proof.
  intros Hm Hf. unfold gene_factor. rewrite Hm, Hf.
  unfold getitem. rewrite parent_table_mother, parent_table_father.
  rewrite !parent_value_transmit.
  destruct g as [| [| [| g]]]; reflexivity.
Qed.

(** ** [joint_probability] *)

Lemma gene_factor_spec (one_gene two_genes : pyset) (info : person) (g : nat) :
  parents_paired info -> (g <= 2)%nat ->
  gene_factor one_gene two_genes info g
  = spec_gene_term one_gene two_genes info g.
Proof.
  intros Hp Hg. unfold spec_gene_term, spec_founder.
  destruct (mother info) as [m |] eqn:Hm, (father info) as [f |] eqn:Hf.
  - rewrite (gene_factor_parents _ _ _ m f g Hm Hf). simpl.
    apply Nat.leb_le in Hg. now rewrite Hg.
  - unfold parents_paired in Hp. rewrite Hm, Hf in Hp.
    destruct Hp as [_ Hp]. now specialize (Hp eq_refl).
  - unfold parents_paired in Hp. rewrite Hm, Hf in Hp.
    destruct Hp as [Hp _]. now specialize (Hp eq_refl).
  - unfold gene_factor. now rewrite Hm.
Qed.

Lemma joint_fold_product (one_gene two_genes have_trait : pyset)
    (people : people_t) (acc : num) :
  Forall (fun entry => parents_paired (snd entry)) people ->
  fold_left (joint_step one_gene two_genes have_trait) people acc
  = acc * spec_joint people one_gene two_genes have_trait.
Proof.
  revert acc. induction people as [| [person info] people IH]; intros acc Hp.
  - unfold spec_joint. simpl. ring.
  - inversion Hp as [| ? ? Hinfo Hrest]; subst. simpl in Hinfo.
    cbn [fold_left]. rewrite (IH _ Hrest).
    unfold joint_step, spec_joint. cbn [fst snd map product fold_right].
    rewrite gene_factor_spec by
      (try exact Hinfo; apply person_gene_count_range).
    fold (product
            (map
               (fun entry =>
                  spec_gene_term one_gene two_genes (snd entry)
                    (person_gene_count one_gene two_genes (fst entry))
                  * PROBS_trait
                      (person_gene_count one_gene two_genes (fst entry))
                      (mem (fst entry) have_trait))
               people)).
    ring.
Qed.

(** C1: for a family whose rows have both parents or none,
    [joint_probability] is the product over the individuals of the gene term
    (the prior of the individual's gene count for a founder, the
    inheritance term from both parents' gene counts in the same assignment
    otherwise) times the trait term [P(trait = t | gene = g)]. *)
Theorem joint_probability_is_product (people : people_t)
    (one_gene two_genes have_trait : pyset) :
  Forall (fun entry => parents_paired (snd entry)) people ->
  joint_probability people one_gene two_genes have_trait
  = spec_joint people one_gene two_genes have_trait.
Proof.
  intros Hp. unfold joint_probability.
  rewrite joint_fold_product by exact Hp. ring.
Qed.


(** ** Overlapping gene sets *)

Lemma person_gene_count_overlap (one_gene two_genes : pyset) (person : string) :
  person_gene_count one_gene (set_diff two_genes one_gene) person
  = person_gene_count one_gene two_genes person.
Proof.
  unfold person_gene_count. rewrite mem_set_diff.
  destruct (mem person one_gene); [reflexivity |].
  now rewrite andb_true_r.
Qed.

Lemma parent_table_overlap (one_gene two_genes : pyset) (parents : list string) :
  parent_gene_inheritance_probability one_gene (set_diff two_genes one_gene)
    parents
  = parent_gene_inheritance_probability one_gene two_genes parents.
Proof.
  unfold parent_gene_inheritance_probability.
  generalize (@nil (string * num)).
  induction parents as [| parent parents IH]; intros table; [reflexivity |].
  cbn [fold_left]. rewrite mem_set_diff.
  destruct (mem parent one_gene); [apply IH |].
  rewrite andb_true_r. apply IH.
Qed.

Lemma joint_step_overlap (one_gene two_genes have_trait : pyset)
    (acc : num) (entry : string * person) :
  joint_step one_gene (set_diff two_genes one_gene) have_trait acc entry
  = joint_step one_gene two_genes have_trait acc entry.
Proof.
  unfold joint_step, gene_factor.
  rewrite person_gene_count_overlap.
  destruct (mother (snd entry)), (father (snd entry)); try reflexivity.
  now rewrite parent_table_overlap.
Qed.

Lemma fold_left_ext {A B : Type} (f g : A -> B -> A) (l : list B) (a : A) :
  (forall a b, f a b = g a b) -> fold_left f l a = fold_left g l a.
Proof.
  intros H. revert a. induction l as [| b l IH]; intros a; [reflexivity |].
  cbn [fold_left]. rewrite H. apply IH.
Qed.

(** C9: the two gene sets may overlap; a person in both counts as one copy:
    the gene count is 1, [update] adds to that person's bucket 1, and
    [joint_probability] and [update] give what they give when the overlap
    is taken out of [two_genes]. *)
Theorem one_gene_takes_precedence (people : people_t)
    (probabilities : probabilities_t)
    (one_gene two_genes have_trait : pyset) (p : num)
    (who : string) (d : distribution) :
  mem who one_gene = true -> mem who two_genes = true ->
  In (who, d) probabilities ->
  person_gene_count one_gene two_genes who = 1%nat
  /\ In (who,
         mkDist (mkGene (gene2 (gene d)) (gene1 (gene d) + p) (gene0 (gene d)))
                (trait_add (trait_d d) (mem who have_trait) p))
        (update probabilities one_gene two_genes have_trait p)
  /\ joint_probability people one_gene two_genes have_trait
     = joint_probability people one_gene (set_diff two_genes one_gene)
         have_trait
  /\ update probabilities one_gene two_genes have_trait p
     = update probabilities one_gene (set_diff two_genes one_gene)
         have_trait p.
Proof.
  intros H1 H2 Hin.
  assert (Hg : person_gene_count one_gene two_genes who = 1%nat)
    by (unfold person_gene_count; now rewrite H1).
  repeat split.
  - exact Hg.
  - unfold update. apply in_map_iff. exists (who, d).
    split; [| exact Hin].
    unfold update_person. cbn [fst snd]. now rewrite Hg.
  - unfold joint_probability. apply fold_left_ext.
    intros a b. symmetry. apply joint_step_overlap.
  - unfold update. apply map_ext. intros e. unfold update_person.
    now rewrite person_gene_count_overlap.
Qed.

(** ** [update] *)

Lemma gene_sum_add (d : gene_dist) (g : nat) (p : num) :
  gene_sum (gene_add d g p) = gene_sum d + p.
Proof.
  unfold gene_sum, gene_add.
  destruct g as [| [| [| g]]]; cbn [gene2 gene1 gene0]; ring.
Qed.

Lemma trait_sum_add (d : trait_dist) (t : bool) (p : num) :
  trait_sum (trait_add d t p) = trait_sum d + p.
Proof.
  unfold trait_sum, trait_add.
  destruct t; cbn [trait_true trait_false]; ring.
Qed.

Lemma gene_at_add (d : gene_dist) (g g' : nat) (p : num) :
  (g <= 2)%nat -> (g' <= 2)%nat ->
  gene_at (gene_add d g p) g'
  = if Nat.eqb g' g then gene_at d g' + p else gene_at d g'.
Proof.
  intros Hg Hg'.
  destruct g as [| [| [| g]]]; [| | | lia];
    destruct g' as [| [| [| g']]]; try lia; reflexivity.
Qed.

Lemma trait_at_add (d : trait_dist) (t t' : bool) (p : num) :
  trait_at (trait_add d t p) t'
  = if Bool.eqb t' t then trait_at d t' + p else trait_at d t'.
Proof. destruct t, t'; reflexivity. Qed.

Lemma update_buckets (probabilities : probabilities_t)
    (one_gene two_genes have_trait : pyset) (p : num) :
  Forall2
    (fun entry entry' =>
       fst entry' = fst entry
       /\ adds_to_one_bucket_each p (snd entry) (snd entry'))
    probabilities (update probabilities one_gene two_genes have_trait p).
Proof.
  induction probabilities as [| [who d] rest IH]; [constructor |].
  cbn [update map]. constructor; [| exact IH].
  split; [reflexivity |].
  exists (person_gene_count one_gene two_genes who), (mem who have_trait).
  cbn [update_person fst snd gene trait_d]. repeat split.
  - apply person_gene_count_range.
  - intros g' Hg'. apply gene_at_add; [apply person_gene_count_range | exact Hg'].
  - intros t'. apply trait_at_add.
Qed.

Lemma keys_update (probabilities : probabilities_t)
    (one_gene two_genes have_trait : pyset) (p : num) :
  keys (update probabilities one_gene two_genes have_trait p)
  = keys probabilities.
Proof.
  unfold keys, update. rewrite map_map. apply map_ext. now intros [who d].
Qed.

Lemma keys_run_updates (calls : list (pyset * pyset * pyset * num))
    (probabilities : probabilities_t) :
  keys (run_updates calls probabilities) = keys probabilities.
Proof.
  revert probabilities.
  induction calls as [| [[[o t] h] p] calls IH]; intros probabilities;
    [reflexivity |].
  unfold run_updates in *. cbn [fold_left]. rewrite IH. apply keys_update.
Qed.

Lemma keys_map_fst {V W : Type} (F : string * V -> W) (d : dict V) :
  keys (map (fun entry => (fst entry, F entry)) d) = keys d.
Proof. unfold keys. rewrite map_map. now apply map_ext. Qed.

Lemma keys_initial (people : people_t) : keys (initial people) = keys people.
Proof. unfold initial. apply keys_map_fst. Qed.

Lemma balanced_initial (people : people_t) : balanced 0 (initial people).
Proof.
  unfold balanced, initial. apply Forall_forall. intros e He.
  apply in_map_iff in He. destruct He as [e0 [E _]]. subst e.
  cbn. unfold gene_sum, trait_sum. cbn. split; ring.
Qed.

Lemma balanced_update (mass : num) (probabilities : probabilities_t)
    (one_gene two_genes have_trait : pyset) (p : num) :
  balanced mass probabilities ->
  balanced (mass + p) (update probabilities one_gene two_genes have_trait p).
Proof.
  unfold balanced, update. intros H. apply Forall_forall. intros e He.
  apply in_map_iff in He. destruct He as [[who d] [E Hin]]. subst e.
  rewrite Forall_forall in H. destruct (H _ Hin) as [Hg Ht].
  cbn [update_person fst snd gene trait_d] in *.
  rewrite gene_sum_add, trait_sum_add, Hg, Ht. now split.
Qed.

Lemma balanced_run (calls : list (pyset * pyset * pyset * num)) (mass : num)
    (probabilities : probabilities_t) :
  balanced mass probabilities ->
  balanced (mass + total (map snd calls)) (run_updates calls probabilities).
Proof.
  revert mass probabilities.
  induction calls as [| [[[o t] h] p] calls IH]; intros mass probabilities H.
  - cbn. replace (mass + 0) with mass by ring. exact H.
  - unfold run_updates in *. cbn [fold_left map snd total fold_right].
    replace (mass + (p + fold_right Qcplus 0 (map snd calls)))
      with ((mass + p) + total (map snd calls)) by (unfold total; ring).
    apply IH. now apply balanced_update.
Qed.

(** C10, in exact arithmetic: every [update] adds [p] to one gene bucket
    and to one trait bucket of every person, and after any run of [update]
    calls from the all-zero belief state the three gene buckets and the two
    trait buckets of every person both add up to the mass accumulated so
    far.  (In binary64 the two sums can differ in the last digits, see
    [sums_differ_in_binary64].) *)
Theorem update_keeps_sums_equal (people : people_t)
    (calls : list (pyset * pyset * pyset * num)) :
  (forall probabilities one_gene two_genes have_trait p,
      Forall2
        (fun entry entry' =>
           fst entry' = fst entry
           /\ adds_to_one_bucket_each p (snd entry) (snd entry'))
        probabilities
        (update probabilities one_gene two_genes have_trait p))
  /\ keys (run_updates calls (initial people)) = keys people
  /\ Forall
       (fun entry =>
          gene_sum (gene (snd entry)) = total (map snd calls)
          /\ trait_sum (trait_d (snd entry)) = total (map snd calls)
          /\ gene_sum (gene (snd entry)) = trait_sum (trait_d (snd entry)))
       (run_updates calls (initial people)).
Proof.
  split; [| split].
  - intros. apply update_buckets.
  - now rewrite keys_run_updates, keys_initial.
  - pose proof (balanced_run calls 0 _ (balanced_initial people)) as H.
    replace (0 + total (map snd calls)) with (total (map snd calls)) in H
      by ring.
    unfold balanced in H. rewrite Forall_forall in *.
    intros e He. destruct (H e He) as [Hg Ht]. repeat split; congruence.
Qed.

(** ** [normalize] *)

Lemma normalize_gene_ok (d : gene_dist) :
  gene_sum d <> 0 ->
  normalize_gene d
  = Ok (mkGene (gene2 d / gene_sum d) (gene1 d / gene_sum d)
               (gene0 d / gene_sum d)).
Proof.
  intros H. unfold normalize_gene. now rewrite !truediv_nonzero by exact H.
Qed.

Lemma normalize_trait_ok (d : trait_dist) :
  trait_sum d <> 0 ->
  normalize_trait d
  = Ok (mkTrait (trait_true d / trait_sum d) (trait_false d / trait_sum d)).
Proof.
  intros H. unfold normalize_trait. now rewrite !truediv_nonzero by exact H.
Qed.

Lemma normalize_gene_zero (d : gene_dist) :
  gene_sum d = 0 -> normalize_gene d = Raise ZeroDivisionError.
Proof.
  intros H. unfold normalize_gene. rewrite H. now rewrite truediv_zero.
Qed.

Lemma normalize_trait_zero (d : trait_dist) :
  trait_sum d = 0 -> normalize_trait d = Raise ZeroDivisionError.
Proof.
  intros H. unfold normalize_trait. rewrite H. now rewrite truediv_zero.
Qed.

Lemma normalize_person_ok (d : distribution) :
  nonzero_sums d -> normalize_person d = Ok (normalized d).
Proof.
  intros [Hg Ht]. unfold normalize_person.
  rewrite normalize_gene_ok by exact Hg. cbn [bind].
  rewrite normalize_trait_ok by exact Ht. reflexivity.
Qed.

Lemma normalize_person_zero (d : distribution) :
  ~ nonzero_sums d -> normalize_person d = Raise ZeroDivisionError.
Proof.
  intros H. unfold normalize_person.
  destruct (Qc_eq_dec (gene_sum (gene d)) 0) as [Eg | Ng].
  - now rewrite normalize_gene_zero.
  - rewrite normalize_gene_ok by exact Ng. cbn [bind].
    destruct (Qc_eq_dec (trait_sum (trait_d d)) 0) as [Et | Nt].
    + now rewrite normalize_trait_zero.
    + elim H. now split.
Qed.

Lemma normalize_ok (probabilities : probabilities_t) :
  Forall (fun entry => nonzero_sums (snd entry)) probabilities ->
  normalize probabilities
  = Ok (map (fun entry => (fst entry, normalized (snd entry))) probabilities).
Proof.
  induction probabilities as [| [who d] rest IH]; intros H; [reflexivity |].
  inversion H as [| ? ? Hd Hrest]; subst. cbn [normalize].
  rewrite normalize_person_ok by exact Hd. cbn [bind].
  rewrite IH by exact Hrest. reflexivity.
Qed.

Lemma normalize_zero (probabilities : probabilities_t) :
  Exists (fun entry => ~ nonzero_sums (snd entry)) probabilities ->
  normalize probabilities = Raise ZeroDivisionError.
Proof.
  induction probabilities as [| [who d] rest IH]; intros H.
  - inversion H.
  - cbn [normalize].
    destruct (Qc_eq_dec (gene_sum (gene d)) 0) as [Eg | Ng].
    { rewrite normalize_person_zero; [reflexivity |]. now intros [N _]. }
    destruct (Qc_eq_dec (trait_sum (trait_d d)) 0) as [Et | Nt].
    { rewrite normalize_person_zero; [reflexivity |]. now intros [_ N]. }
    rewrite normalize_person_ok by now split. cbn [bind].
    inversion H as [? ? Hd | ? ? Hrest]; subst.
    + elim Hd. now split.
    + now rewrite (IH Hrest).
Qed.

Lemma normalized_gene_sum (d : distribution) :
  gene_sum (gene d) <> 0 -> gene_sum (gene (normalized d)) = 1.
Proof.
  intros H. unfold normalized. cbn [gene]. unfold gene_sum in *.
  cbn [gene2 gene1 gene0]. field. rewrite Qcplus_0_l in H. exact H.
Qed.

Lemma normalized_trait_sum (d : distribution) :
  trait_sum (trait_d d) <> 0 -> trait_sum (trait_d (normalized d)) = 1.
Proof.
  intros H. unfold normalized. cbn [trait_d]. unfold trait_sum in *.
  cbn [trait_true trait_false]. field. rewrite Qcplus_0_l in H. exact H.
Qed.

Lemma within_refl (eps x : num) : 0 <= eps -> within eps x x.
Proof.
  intros H. unfold within. split.
  - apply Qcle_minus_iff. replace (x + - (x - eps)) with eps by ring. exact H.
  - apply Qcle_minus_iff. replace (x + eps + - x) with eps by ring. exact H.
Qed.

(** C4: when no sum is zero, [normalize] returns, and in what it returns
    each person's gene-count distribution and trait distribution sum to 1
    (so within 1e-6 of 1), each bucket being the old bucket divided by the
    sum its own distribution had before. *)
Theorem normalize_sums_to_one (probabilities : probabilities_t) :
  Forall (fun entry => nonzero_sums (snd entry)) probabilities ->
  exists probabilities',
    normalize probabilities = Ok probabilities'
    /\ Forall2
         (fun entry entry' =>
            fst entry' = fst entry
            /\ gene_sum (gene (snd entry')) = 1
            /\ trait_sum (trait_d (snd entry')) = 1
            /\ within (lit 1e-6) (gene_sum (gene (snd entry'))) 1
            /\ within (lit 1e-6) (trait_sum (trait_d (snd entry'))) 1
            /\ (forall g,
                  gene_at (gene (snd entry')) g
                  = gene_at (gene (snd entry)) g / gene_sum (gene (snd entry)))
            /\ (forall t,
                  trait_at (trait_d (snd entry')) t
                  = trait_at (trait_d (snd entry)) t
                    / trait_sum (trait_d (snd entry))))
         probabilities probabilities'.
Proof.
  intros H. eexists. split; [apply normalize_ok, H |].
  induction probabilities as [| [who d] rest IH]; [constructor |].
  inversion H as [| ? ? Hd Hrest]; subst. cbn [snd] in Hd.
  cbn [map]. constructor; [| apply IH, Hrest].
  cbn [fst snd]. destruct Hd as [Hg Ht].
  assert (Heps : 0 <= lit 1e-6) by (unfold Qcle; cbn; discriminate).
  rewrite (normalized_gene_sum d Hg), (normalized_trait_sum d Ht).
  repeat split; try apply (proj1 (within_refl _ 1 Heps));
    try apply (proj2 (within_refl _ 1 Heps)).
  - intros g. destruct g as [| [| [| g]]]; reflexivity.
  - intros t. destruct t; reflexivity.
Qed.

(** C5, as the code has it: when the sum of some person's distribution is
    zero, [normalize] ends with the interpreter's [ZeroDivisionError]; it
    returns no distribution (so no NaN), and no error of its own. *)
Theorem normalize_zero_sum_raises (probabilities : probabilities_t) :
  Exists
    (fun entry =>
       gene_sum (gene (snd entry)) = 0 \/ trait_sum (trait_d (snd entry)) = 0)
    probabilities ->
  normalize probabilities = Raise ZeroDivisionError
  /\ (forall probabilities', normalize probabilities <> Ok probabilities').
Proof.
  intros H.
  assert (E : normalize probabilities = Raise ZeroDivisionError).
  { apply normalize_zero. apply Exists_exists in H. apply Exists_exists.
    destruct H as [e [He Hz]]. exists e. split; [exact He |].
    intros [Ng Nt]. destruct Hz; contradiction. }
  split; [exact E |]. intros p'. rewrite E. discriminate.
Qed.

(** ** Folding over the enumeration *)

Lemma fold_left_flat_map {A B C : Type} (f : A -> C -> A) (g : B -> list C)
    (l : list B) (a : A) :
  fold_left f (flat_map g l) a
  = fold_left (fun a x => fold_left f (g x) a) l a.
Proof.
  revert a. induction l as [| x l IH]; intros a; [reflexivity |].
  cbn [flat_map fold_left]. rewrite fold_left_app. apply IH.
Qed.

Lemma fold_left_map {A B C : Type} (f : A -> C -> A) (g : B -> C)
    (l : list B) (a : A) :
  fold_left f (map g l) a = fold_left (fun a x => f a (g x)) l a.
Proof.
  revert a. induction l as [| x l IH]; intros a; [reflexivity |].
  cbn [map fold_left]. apply IH.
Qed.

Lemma combinations_filter {A : Type} (f : A -> bool) (s : list A) :
  In (filter f s) (combinations s (List.length (filter f s))).
Proof.
  induction s as [| x s IH]; [now left |].
  cbn [filter]. destruct (f x).
  - cbn [List.length combinations]. apply in_or_app. left.
    apply in_map. exact IH.
  - destruct (filter f s) as [| y rest] eqn:E.
    + now left.
    + cbn [List.length combinations] in *. apply in_or_app. right. exact IH.
Qed.

Lemma filter_length_le {A : Type} (f : A -> bool) (s : list A) :
  (List.length (filter f s) <= List.length s)%nat.
Proof.
  induction s as [| x s IH]; [apply Nat.le_refl |].
  cbn [filter]. destruct (f x); cbn [List.length]; lia.
Qed.

Lemma run_updates_person (calls : list (pyset * pyset * pyset * num))
    (probabilities : probabilities_t) :
  run_updates calls probabilities
  = map (fun entry => (fst entry, person_run (fst entry) calls (snd entry)))
        probabilities.
Proof.
  revert probabilities.
  induction calls as [| [[[o t] h] p] calls IH]; intros probabilities.
  - cbn. rewrite <- (map_id probabilities) at 1. apply map_ext. now intros [].
  - unfold run_updates in *. cbn [fold_left]. rewrite IH.
    unfold update. rewrite map_map. apply map_ext. now intros [who d].
Qed.

Lemma dict_get_map {V W : Type} (F : string -> V -> W) (d : dict V)
    (k : string) :
  dict_get (map (fun entry => (fst entry, F (fst entry) (snd entry))) d) k
  = option_map (F k) (dict_get d k).
Proof.
  induction d as [| [k' v] d IH]; [reflexivity |].
  cbn [map dict_get fst snd]. destruct (String.eqb k k') eqn:E.
  - apply String.eqb_eq in E. now subst.
  - exact IH.
Qed.

Lemma person_run_trait_false (who : string)
    (calls : list (pyset * pyset * pyset * num)) (d : distribution) :
  Forall (fun call => mem who (snd (fst call)) = true) calls ->
  trait_false (trait_d (person_run who calls d)) = trait_false (trait_d d).
Proof.
  revert d. induction calls as [| [[[o t] h] p] calls IH]; intros d H;
    [reflexivity |].
  inversion H as [| ? ? Hc Hrest]; subst. cbn [fst snd] in Hc.
  unfold person_run in *. cbn [fold_left]. rewrite (IH _ Hrest).
  cbn [update_person fst snd trait_d]. now rewrite Hc.
Qed.

(** ** Every score is positive *)

Lemma spec_inherit_pos (a b c : nat) :
  (a <= 2)%nat -> (b <= 2)%nat -> (c <= 2)%nat ->
  0 < spec_inherit (spec_transmit a) (spec_transmit b) c.
Proof.
  intros Ha Hb Hc.
  destruct a as [| [| [| a]]]; [| | | lia];
    destruct b as [| [| [| b]]]; try lia;
    destruct c as [| [| [| c]]]; try lia; reflexivity.
Qed.

Lemma PROBS_gene_pos (g : nat) : (g <= 2)%nat -> 0 < PROBS_gene g.
Proof. intros H. destruct g as [| [| [| g]]]; [| | | lia]; reflexivity. Qed.

Lemma PROBS_trait_pos (g : nat) (t : bool) :
  (g <= 2)%nat -> 0 < PROBS_trait g t.
Proof.
  intros H. destruct g as [| [| [| g]]]; [| | | lia]; destruct t; reflexivity.
Qed.

Lemma gene_factor_pos (one_gene two_genes : pyset) (info : person) (g : nat) :
  (g <= 2)%nat -> 0 < gene_factor one_gene two_genes info g.
Proof.
  intros Hg.
  destruct (mother info) as [m |] eqn:Hm; [destruct (father info) as [f |] eqn:Hf |].
  - rewrite (gene_factor_parents _ _ _ m f g Hm Hf).
    apply spec_inherit_pos; try apply person_gene_count_range.
    destruct (Nat.leb g 2); lia.
  - unfold gene_factor. rewrite Hm, Hf. now apply PROBS_gene_pos.
  - unfold gene_factor. rewrite Hm. now apply PROBS_gene_pos.
Qed.

Lemma joint_step_pos (one_gene two_genes have_trait : pyset) (acc : num)
    (entry : string * person) :
  0 < acc -> 0 < joint_step one_gene two_genes have_trait acc entry.
Proof.
  intros H. unfold joint_step. apply Qcmult_pos; [apply Qcmult_pos |].
  - exact H.
  - apply gene_factor_pos, person_gene_count_range.
  - apply PROBS_trait_pos, person_gene_count_range.
Qed.

Lemma joint_probability_pos (people : people_t)
    (one_gene two_genes have_trait : pyset) :
  0 < joint_probability people one_gene two_genes have_trait.
Proof.
  unfold joint_probability.
  assert (H : 0 < 1) by reflexivity. revert H. generalize 1.
  induction people as [| e people IH]; intros acc H; [exact H |].
  cbn [fold_left]. apply IH. now apply joint_step_pos.
Qed.

Lemma total_pos (ps : list num) :
  ps <> [] -> Forall (fun p => 0 < p) ps -> 0 < total ps.
Proof.
  intros Hne H. induction H as [| p ps Hp Hps IH]; [now elim Hne |].
  cbn [total fold_right]. apply Qcplus_pos_nonneg; [exact Hp |].
  destruct ps as [| q ps]; [apply Qcle_refl |].
  apply Qclt_le_weak. apply IH. discriminate.
Qed.

Section EnumerationFacts.

Variable set_iter : pyset -> list string.
Hypothesis set_iter_perm : forall s, Permutation (set_iter s) s.

Lemma set_iter_In (s : pyset) (x : string) : In x (set_iter s) <-> In x s.
Proof.
  split; apply Permutation_in;
    [apply set_iter_perm | apply Permutation_sym, set_iter_perm].
Qed.

Lemma powerset_filter (f : string -> bool) (s : pyset) :
  In (filter f (set_iter s)) (powerset set_iter s).
Proof.
  unfold powerset. apply in_flat_map.
  exists (List.length (filter f (set_iter s))). split.
  - apply in_seq. pose proof (filter_length_le f (set_iter s)). lia.
  - apply combinations_filter.
Qed.

Lemma powerset_empty (s : pyset) : In [] (powerset set_iter s).
Proof.
  unfold powerset. apply in_flat_map. exists 0%nat. split.
  - apply in_seq. lia.
  - destruct (set_iter s); now left.
Qed.

Lemma fails_evidence_iff (people : people_t) (have_trait : pyset) :
  fails_evidence set_iter people (keys people) have_trait = true
  <-> contradicts_evidence people have_trait.
Proof.
  unfold fails_evidence, contradicts_evidence.
  rewrite existsb_exists. split.
  - intros [who [_ H]].
    destruct (dict_get people who) as [info |] eqn:Hget; [| discriminate].
    destruct (trait info) as [t |] eqn:Ht; [| discriminate].
    exists who, info, t. repeat split; try assumption.
    intros E. rewrite <- E in H. now rewrite Bool.eqb_reflx in H.
  - intros [who [info [t [Hget [Ht Hne]]]]]. exists who. split.
    + apply set_iter_In. apply dict_get_Some_In in Hget.
      unfold keys. apply in_map_iff. now exists (who, info).
    + rewrite Hget, Ht. apply negb_true_iff.
      apply Bool.eqb_false_iff. exact Hne.
Qed.

Lemma scored_In (people : people_t) (one_gene two_genes have_trait : pyset) :
  In (one_gene, two_genes, have_trait) (scored set_iter people)
  <-> In have_trait (powerset set_iter (keys people))
      /\ fails_evidence set_iter people (keys people) have_trait = false
      /\ In one_gene (powerset set_iter (keys people))
      /\ In two_genes
           (powerset set_iter (set_diff (keys people) one_gene)).
Proof.
  unfold scored. rewrite in_flat_map. split.
  - intros [h [Hh Hin]].
    destruct (fails_evidence set_iter people (keys people) h) eqn:Hf;
      [easy |].
    apply in_flat_map in Hin. destruct Hin as [o [Ho Hin]].
    apply in_map_iff in Hin. destruct Hin as [t [E Ht]].
    inversion E; subst. now repeat split.
  - intros [Hh [Hf [Ho Ht]]]. exists have_trait. split; [exact Hh |].
    rewrite Hf. apply in_flat_map. exists one_gene. split; [exact Ho |].
    apply in_map_iff. now exists two_genes.
Qed.

(** A candidate trait subset is absent from the scored assignments exactly
    when somebody with known trait evidence has a membership in it that
    contradicts the observed value; every other candidate is there with
    every gene partition. *)
Lemma evidence_filter (people : people_t) (have_trait : pyset) :
  In have_trait (powerset set_iter (keys people)) ->
  (fails_evidence set_iter people (keys people) have_trait = true
   <-> contradicts_evidence people have_trait)
  /\ ((forall one_gene two_genes,
         ~ In (one_gene, two_genes, have_trait) (scored set_iter people))
      <-> contradicts_evidence people have_trait)
  /\ (~ contradicts_evidence people have_trait ->
      forall one_gene two_genes,
        In one_gene (powerset set_iter (keys people)) ->
        In two_genes (powerset set_iter (set_diff (keys people) one_gene)) ->
        In (one_gene, two_genes, have_trait) (scored set_iter people)).
Proof.
  intros Hh. split; [apply fails_evidence_iff |]. split.
  - split.
    + intros Hnone. apply fails_evidence_iff.
      destruct (fails_evidence set_iter people (keys people) have_trait)
        eqn:Hf; [reflexivity |].
      elim (Hnone [] []). apply scored_In.
      repeat split; try assumption; apply powerset_empty.
    + intros Hc o t Hin. apply scored_In in Hin.
      destruct Hin as [_ [Hf _]].
      apply fails_evidence_iff in Hc. congruence.
  - intros Hn o t Ho Ht. apply scored_In. repeat split; try assumption.
    destruct (fails_evidence set_iter people (keys people) have_trait)
      eqn:Hf; [| reflexivity].
    elim Hn. now apply fails_evidence_iff.
Qed.


(** The loop is the run of [update] over the scored assignments. *)
Lemma accumulate_run (people : people_t) :
  accumulate set_iter people
  = run_updates (map (score people) (scored set_iter people))
      (initial people).
Proof.
  unfold accumulate, run_updates, scored.
  rewrite fold_left_map, fold_left_flat_map.
  apply fold_left_ext. intros probabilities h.
  destruct (fails_evidence set_iter people (keys people) h); [reflexivity |].
  rewrite fold_left_flat_map. apply fold_left_ext. intros probabilities' o.
  rewrite fold_left_map. reflexivity.
Qed.

Lemma scored_nonempty (people : people_t) : scored set_iter people <> [].
Proof.
  set (known :=
         fun who =>
           match dict_get people who with
           | Some info =>
               match trait info with Some t => t | None => false end
           | None => false
           end).
  set (h := filter known (set_iter (keys people))).
  assert (Hin : In ([], [], h) (scored set_iter people)).
  { apply scored_In. repeat split; try apply powerset_empty.
    - apply powerset_filter.
    - destruct (fails_evidence set_iter people (keys people) h) eqn:Hf;
        [| reflexivity].
      apply fails_evidence_iff in Hf.
      destruct Hf as [who [info [t [Hget [Ht Hne]]]]]. elim Hne.
      assert (Hk : known who = t) by (unfold known; now rewrite Hget, Ht).
      assert (Hw : In who (set_iter (keys people))).
      { apply set_iter_In. apply dict_get_Some_In in Hget.
        unfold keys. apply in_map_iff. now exists (who, info). }
      destruct t.
      + symmetry. apply mem_In. unfold h. apply filter_In. now split.
      + symmetry. apply mem_false. unfold h. intros Hh.
        apply filter_In in Hh. destruct Hh as [_ Hh]. congruence. }
  intros E. rewrite E in Hin. exact Hin.
Qed.

Lemma scores_pos (people : people_t) :
  Forall (fun p => 0 < p)
    (map snd (map (score people) (scored set_iter people))).
Proof.
  apply Forall_forall. intros p Hp.
  apply in_map_iff in Hp. destruct Hp as [c [E Hc]].
  apply in_map_iff in Hc. destruct Hc as [[[o t] h] [E' _]].
  subst. cbn. apply joint_probability_pos.
Qed.

Lemma mass_pos (people : people_t) : 0 < mass set_iter people.
Proof.
  unfold mass. apply total_pos; [| apply scores_pos].
  pose proof (scored_nonempty people) as H.
  destruct (scored set_iter people); [now elim H | discriminate].
Qed.

Lemma accumulate_balanced (people : people_t) :
  balanced (mass set_iter people) (accumulate set_iter people).
Proof.
  rewrite accumulate_run.
  pose proof (balanced_run (map (score people) (scored set_iter people)) 0
                _ (balanced_initial people)) as H.
  unfold mass. now rewrite Qcplus_0_l in H.
Qed.

(** [main] returns: no division by zero happens. *)
Lemma main_ok (people : people_t) :
  main set_iter people
  = Ok (map (fun entry => (fst entry, normalized (snd entry)))
            (accumulate set_iter people)).
Proof.
  unfold main. apply normalize_ok.
  pose proof (accumulate_balanced people) as H. unfold balanced in H.
  pose proof (Qc_pos_nonzero _ (mass_pos people)) as Hm.
  rewrite Forall_forall in *. intros e He.
  destruct (H e He) as [Hg Ht]. split; congruence.
Qed.

(** C6: a person whose observed trait is [True] comes out of [main] with
    probability 1 on [True] and 0 on [False]. *)
Theorem evidence_true_is_certain (people : people_t) (who : string)
    (info : person) :
  dict_get people who = Some info ->
  trait info = Some true ->
  exists probabilities d,
    main set_iter people = Ok probabilities
    /\ keys probabilities = keys people
    /\ dict_get probabilities who = Some d
    /\ trait_true (trait_d d) = 1
    /\ trait_false (trait_d d) = 0.
Proof.
  intros Hget Ht.
  set (calls := map (score people) (scored set_iter people)).
  set (zero := mkDist (mkGene 0 0 0) (mkTrait 0 0)).
  set (d := person_run who calls zero).
  exists (map (fun entry => (fst entry, normalized (snd entry)))
              (accumulate set_iter people)), (normalized d).
  assert (Hacc : dict_get (accumulate set_iter people) who = Some d).
  { rewrite accumulate_run, run_updates_person.
    rewrite (dict_get_map (fun k v => person_run k calls v)).
    unfold initial.
    rewrite (dict_get_map (fun _ _ => zero)). now rewrite Hget. }
  assert (Hfalse : trait_false (trait_d d) = 0).
  { unfold d. rewrite person_run_trait_false; [reflexivity |].
    apply Forall_forall. intros c Hc. unfold calls in Hc.
    apply in_map_iff in Hc. destruct Hc as [[[o t] h] [E Hin]]. subst c.
    cbn [score fst snd]. apply scored_In in Hin.
    destruct Hin as [_ [Hf _]].
    destruct (mem who h) eqn:Hm; [reflexivity |].
    assert (Hc : contradicts_evidence people h).
    { exists who, info, true. repeat split; try assumption.
      rewrite Hm. discriminate. }
    apply fails_evidence_iff in Hc. congruence. }
  assert (Hsum : trait_sum (trait_d d) <> 0).
  { pose proof (accumulate_balanced people) as H. unfold balanced in H.
    rewrite Forall_forall in H.
    destruct (H (who, d) (dict_get_Some_In _ _ _ Hacc)) as [_ Hs].
    cbn [snd] in Hs. rewrite Hs. apply Qc_pos_nonzero, mass_pos. }
  split; [apply main_ok |]. split.
  { rewrite (keys_map_fst (fun entry => normalized (snd entry))).
    rewrite accumulate_run, keys_run_updates. apply keys_initial. }
  split.
  { rewrite (dict_get_map (fun _ v => normalized v)). now rewrite Hacc. }
  unfold normalized. cbn [trait_d trait_true trait_false].
  unfold trait_sum in *. rewrite Hfalse in *. split.
  - field. intros E. apply Hsum. rewrite <- E at 3. ring.
  - unfold Qcdiv. ring.
Qed.


Lemma set_iter_single (x : string) : set_iter [x] = [x].
Proof. apply Permutation_length_1_inv, Permutation_sym, set_iter_perm. Qed.

Lemma set_iter_nil : set_iter [] = [].
Proof. apply Permutation_nil, Permutation_sym, set_iter_perm. Qed.

Lemma mem_single (x : string) : mem x [x] = true.
Proof. unfold mem. cbn [existsb]. now rewrite String.eqb_refl. Qed.

(** The six assignments [main] scores for a family of one person without
    evidence, in the order of the three loops. *)
Lemma scored_single (who : string) (info : person) :
  trait info = None ->
  scored set_iter [(who, info)]
  = [([], [], []); ([], [who], []); ([who], [], []);
     ([], [], [who]); ([], [who], [who]); ([who], [], [who])].
Proof.
  intros Ht. unfold scored, powerset, fails_evidence, keys.
  cbn [map fst]. rewrite set_iter_single.
  cbn [List.length Nat.add seq flat_map combinations map app existsb dict_get].
  rewrite String.eqb_refl, Ht.
  cbn [orb app flat_map map set_diff filter mem existsb negb].
  rewrite String.eqb_refl.
  cbn [orb app flat_map map set_diff filter mem existsb negb].
  rewrite set_iter_single, set_iter_nil.
  reflexivity.
Qed.

Lemma joint_founder (who : string) (info : person)
    (one_gene two_genes have_trait : pyset) :
  mother info = None ->
  joint_probability [(who, info)] one_gene two_genes have_trait
  = 1 * PROBS_gene (person_gene_count one_gene two_genes who)
    * PROBS_trait (person_gene_count one_gene two_genes who)
        (mem who have_trait).
Proof.
  intros Hm. unfold joint_probability. cbn [fold_left].
  unfold joint_step, gene_factor. cbn [fst snd]. now rewrite Hm.
Qed.

(** In exact arithmetic, for a family of one founder without trait
    evidence, the gene-count distribution [main] returns is the table of
    priors: the value for gene count [g] is [PROBS["gene"][g]]. *)
Lemma single_founder_prior (who : string) (info : person) :
  mother info = None -> father info = None -> trait info = None ->
  exists d,
    main set_iter [(who, info)] = Ok [(who, d)]
    /\ gene d = mkGene (PROBS_gene 2) (PROBS_gene 1) (PROBS_gene 0)
    /\ forall g, (g <= 2)%nat -> gene_at (gene d) g = PROBS_gene g.
Proof.
  intros Hm _ Ht. eexists. split.
  { rewrite main_ok, accumulate_run, run_updates_person. reflexivity. }
  rewrite scored_single by exact Ht.
  cbn [map score]. rewrite !(joint_founder who info _ _ _ Hm).
  unfold person_run. cbn [fold_left fst snd update_person].
  unfold person_gene_count. rewrite !mem_single.
  cbn [mem existsb gene_add trait_add gene trait_d gene2 gene1 gene0
       trait_true trait_false PROBS_gene PROBS_trait].
  split.
  - unfold normalized. cbn [gene gene2 gene1 gene0].
    f_equal; apply Qc_is_canon; vm_compute; reflexivity.
  - intros g Hg.
    destruct g as [| [| [| g]]]; [| | | lia];
      apply Qc_is_canon; vm_compute; reflexivity.
Qed.

(** ** Exchanging mother and father *)

Lemma spec_inherit_sym (mother_transmit father_transmit : num) (g : nat) :
  spec_inherit mother_transmit father_transmit g
  = spec_inherit father_transmit mother_transmit g.
Proof. destruct g as [| [| g]]; cbn [spec_inherit]; ring. Qed.

Lemma gene_factor_swap (one_gene two_genes : pyset) (info : person) (g : nat) :
  gene_factor one_gene two_genes (swap_parents info) g
  = gene_factor one_gene two_genes info g.
Proof.
  unfold gene_factor, swap_parents. cbn [mother father].
  destruct (mother info) as [m |], (father info) as [f |]; try reflexivity.
  unfold getitem.
  rewrite (parent_table_mother one_gene two_genes f m),
    (parent_table_father one_gene two_genes f m),
    (parent_table_mother one_gene two_genes m f),
    (parent_table_father one_gene two_genes m f).
  destruct (Nat.eqb g 1); [ring |]. destruct (Nat.eqb g 2); ring.
Qed.

Lemma joint_probability_swap (pick : string -> bool) (people : people_t)
    (one_gene two_genes have_trait : pyset) :
  joint_probability (swap_some pick people) one_gene two_genes have_trait
  = joint_probability people one_gene two_genes have_trait.
Proof.
  unfold joint_probability, swap_some. rewrite fold_left_map.
  apply fold_left_ext. intros acc [who info]. unfold joint_step.
  cbn [fst snd]. destruct (pick who); [| reflexivity].
  now rewrite gene_factor_swap.
Qed.

Lemma existsb_ext_all {A : Type} (f g : A -> bool) (l : list A) :
  (forall x, f x = g x) -> existsb f l = existsb g l.
Proof.
  intros H. induction l as [| x l IH]; [reflexivity |].
  cbn [existsb]. now rewrite H, IH.
Qed.

Lemma fails_evidence_swap (pick : string -> bool) (people : people_t)
    (names have_trait : pyset) :
  fails_evidence set_iter (swap_some pick people) names have_trait
  = fails_evidence set_iter people names have_trait.
Proof.
  unfold fails_evidence. apply existsb_ext_all. intros who.
  unfold swap_some.
  rewrite (dict_get_map
             (fun k v => if pick k then swap_parents v else v)).
  destruct (dict_get people who) as [info |]; [| reflexivity].
  cbn [option_map]. destruct (pick who); reflexivity.
Qed.

Lemma accumulate_swap (pick : string -> bool) (people : people_t) :
  accumulate set_iter (swap_some pick people) = accumulate set_iter people.
Proof.
  unfold accumulate.
  assert (Hk : keys (swap_some pick people) = keys people)
    by (unfold swap_some;
        apply (keys_map_fst
                 (fun e => if pick (fst e) then swap_parents (snd e)
                           else snd e))).
  assert (Hi : initial (swap_some pick people) = initial people)
    by (unfold initial, swap_some; rewrite map_map; now apply map_ext).
  rewrite Hk, Hi. apply fold_left_ext. intros probabilities h.
  rewrite fails_evidence_swap.
  destruct (fails_evidence set_iter people (keys people) h); [reflexivity |].
  apply fold_left_ext. intros probabilities' o.
  apply fold_left_ext. intros probabilities'' t.
  now rewrite joint_probability_swap.
Qed.

(** C8: exchanging the mother and the father of any children changes
    neither the inheritance term, nor [joint_probability], nor what
    [main] returns. *)
Theorem parents_are_symmetric (pick : string -> bool) (people : people_t)
    (one_gene two_genes have_trait : pyset) :
  (forall mother_transmit father_transmit g,
      spec_inherit mother_transmit father_transmit g
      = spec_inherit father_transmit mother_transmit g)
  /\ joint_probability (swap_some pick people) one_gene two_genes have_trait
     = joint_probability people one_gene two_genes have_trait
  /\ main set_iter (swap_some pick people) = main set_iter people.
Proof.
  split; [apply spec_inherit_sym |]. split.
  - apply joint_probability_swap.
  - unfold main. now rewrite accumulate_swap.
Qed.

End EnumerationFacts.

(** ** The family of Harry, James and Lily *)

Lemma insertion_order_perm (s : pyset) : Permutation (insertion_order s) s.
Proof. apply Permutation_refl. Qed.

Lemma joint_probability_is_product_witness :
  Forall (fun entry => parents_paired (snd entry)) family0
  /\ joint_probability family0 ["Harry"%string] ["James"%string]
       ["James"%string]
     = spec_joint family0 ["Harry"%string] ["James"%string] ["James"%string].
Proof.
  assert (H : Forall (fun entry => parents_paired (snd entry)) family0).
  { repeat constructor; cbn; intros E; (reflexivity || discriminate E). }
  split; [exact H |].
  exact (joint_probability_is_product family0 ["Harry"%string]
           ["James"%string] ["James"%string] H).
Defined.

Lemma one_gene_takes_precedence_witness :
  mem "Harry"%string ["Harry"%string] = true
  /\ mem "Harry"%string ["Harry"%string; "James"%string] = true
  /\ In ("Harry"%string, zero_distribution) (initial family0)
  /\ person_gene_count ["Harry"%string] ["Harry"%string; "James"%string]
       "Harry"%string = 1%nat.
Proof.
  split; [reflexivity |]. split; [reflexivity |].
  assert (Hin : In ("Harry"%string, zero_distribution) (initial family0))
    by (left; reflexivity).
  split; [exact Hin |].
  exact (proj1
           (one_gene_takes_precedence family0 (initial family0)
              ["Harry"%string] ["Harry"%string; "James"%string]
              ["James"%string] (lit 0.5) "Harry"%string zero_distribution
              eq_refl eq_refl Hin)).
Defined.

Lemma normalize_sums_to_one_witness :
  Forall (fun entry => nonzero_sums (snd entry))
    [("Harry"%string, sample_distribution)]
  /\ exists probabilities',
       normalize [("Harry"%string, sample_distribution)] = Ok probabilities'
       /\ Forall
            (fun entry =>
               gene_sum (gene (snd entry)) = 1
               /\ trait_sum (trait_d (snd entry)) = 1)
            probabilities'.
Proof.
  assert (H : Forall (fun entry => nonzero_sums (snd entry))
                [("Harry"%string, sample_distribution)]).
  { constructor; [| constructor].
    split; apply Qc_pos_nonzero; reflexivity. }
  split; [exact H |].
  destruct (normalize_sums_to_one _ H) as [probabilities' [E F]].
  exists probabilities'. split; [exact E |].
  clear E H. induction F as [| e e' l l' He _ IH]; constructor.
  - destruct He as [_ [Hg [Ht _]]]. now split.
  - exact IH.
Defined.

Lemma normalize_zero_sum_raises_witness :
  Exists
    (fun entry =>
       gene_sum (gene (snd entry)) = 0 \/ trait_sum (trait_d (snd entry)) = 0)
    [("Harry"%string, zero_distribution)]
  /\ normalize [("Harry"%string, zero_distribution)] = Raise ZeroDivisionError.
Proof.
  assert (H : Exists
                (fun entry =>
                   gene_sum (gene (snd entry)) = 0
                   \/ trait_sum (trait_d (snd entry)) = 0)
                [("Harry"%string, zero_distribution)]).
  { constructor. left. apply Qc_is_canon. reflexivity. }
  split; [exact H |].
  exact (proj1 (normalize_zero_sum_raises _ H)).
Defined.

(** C5 with a designated error fails: on the all-zero belief state of one
    person [normalize] raises [ZeroDivisionError], which is not an error
    of the program's own. *)
Lemma normalize_zero_not_designated :
  Exists
    (fun entry =>
       gene_sum (gene (snd entry)) = 0 \/ trait_sum (trait_d (snd entry)) = 0)
    [("Harry"%string, zero_distribution)]
  /\ normalize [("Harry"%string, zero_distribution)] = Raise ZeroDivisionError
  /\ ~ (exists e,
          normalize [("Harry"%string, zero_distribution)] = Raise e
          /\ spec_unsatisfiable_evidence_error e).
Proof.
  split; [| split].
  - constructor. left. apply Qc_is_canon. reflexivity.
  - reflexivity.
  - intros [e [E [msg Hmsg]]]. subst e.
    change (normalize [("Harry"%string, zero_distribution)])
      with (@Raise probabilities_t ZeroDivisionError) in E.
    discriminate E.
Qed.

Lemma evidence_true_is_certain_witness :
  (forall s, Permutation (insertion_order s) s)
  /\ dict_get family0 "James"%string = Some james
  /\ trait james = Some true
  /\ exists probabilities d,
       main insertion_order family0 = Ok probabilities
       /\ keys probabilities = keys family0
       /\ dict_get probabilities "James"%string = Some d
       /\ trait_true (trait_d d) = 1
       /\ trait_false (trait_d d) = 0.
Proof.
  split; [exact insertion_order_perm |].
  split; [reflexivity |]. split; [reflexivity |].
  exact (evidence_true_is_certain insertion_order insertion_order_perm
           family0 "James"%string james eq_refl eq_refl).
Defined.

(** ** The embedding on the family of Harry *)

(** The score of "Harry has one copy, James has two and the trait, Lily has
    none": 0.0026643247488. *)
Example joint_probability_family0 :
  joint_probability family0 ["Harry"%string] ["James"%string]
    ["James"%string]
  = lit 0.0026643247488.
Proof. apply Qc_is_canon. vm_compute. reflexivity. Qed.

(** What [main] returns for James, who shows the trait: 65/329, 24/47 and
    96/329 for two, one and no copy (0.1976, 0.5106, 0.2918). *)
Example main_family0_james :
  exists probabilities,
    main insertion_order family0 = Ok probabilities
    /\ dict_get probabilities "James"%string
       = Some (mkDist (mkGene (lit (65 # 329)) (lit (24 # 47))
                              (lit (96 # 329)))
                      (mkTrait 1 0)).
Proof.
  rewrite (main_ok insertion_order insertion_order_perm).
  eexists. split; [reflexivity |].
  rewrite (dict_get_map (fun _ v => normalized v)).
  rewrite (accumulate_run insertion_order), run_updates_person.
  rewrite (dict_get_map
             (fun k v =>
                person_run k
                  (map (score family0) (scored insertion_order family0)) v)).
  cbn [initial family0 map fst snd dict_get String.eqb Ascii.eqb Bool.eqb
       option_map].
  f_equal. unfold normalized.
  f_equal; f_equal; apply Qc_is_canon; vm_compute; reflexivity.
Qed.

(** * More of the program *)

(** ** [powerset] *)

Lemma combinations_length {A : Type} (s : list A) (r : nat) (t : list A) :
  In t (combinations s r) -> List.length t = r.
Proof.
  revert r t. induction s as [| x s IH]; intros [| r] t H; cbn in H.
  - destruct H as [E | []]. now subst.
  - easy.
  - destruct H as [E | []]. now subst.
  - apply in_app_or in H. destruct H as [H | H].
    + apply in_map_iff in H. destruct H as [t' [E H]]. subst t.
      cbn [List.length]. f_equal. now apply IH.
    + now apply IH.
Qed.

Lemma combinations_subseq {A : Type} (s : list A) (r : nat) (t : list A) :
  In t (combinations s r) -> subseq t s.
Proof.
  revert r t. induction s as [| x s IH]; intros r t H.
  - destruct r; cbn in H; [| easy]. destruct H as [E | []]. subst.
    constructor.
  - destruct r as [| r].
    + cbn in H. destruct H as [E | []]. subst t. apply subseq_skip.
      apply (IH 0%nat). destruct s; now left.
    + cbn [combinations] in H. apply in_app_or in H. destruct H as [H | H].
      * apply in_map_iff in H. destruct H as [t' [E H]]. subst t.
        apply subseq_take. now apply (IH r).
      * apply subseq_skip. now apply (IH (S r)).
Qed.

Lemma subseq_combinations {A : Type} (s t : list A) :
  subseq t s -> In t (combinations s (List.length t)).
Proof.
  induction 1 as [| x t l _ IH | x t l _ IH].
  - now left.
  - cbn [List.length combinations]. apply in_or_app. left.
    now apply in_map.
  - destruct t as [| y t]; [now left |].
    cbn [List.length combinations] in *. apply in_or_app. now right.
Qed.

Lemma subseq_length {A : Type} (s t : list A) :
  subseq t s -> (List.length t <= List.length s)%nat.
Proof. induction 1; cbn [List.length]; lia. Qed.

Lemma subseq_incl {A : Type} (s t : list A) (x : A) :
  subseq t s -> In x t -> In x s.
Proof.
  induction 1 as [| y t l _ IH | y t l _ IH]; intros Hx.
  - exact Hx.
  - destruct Hx as [E | Hx]; [now left | right; now apply IH].
  - right. now apply IH.
Qed.

(** In a list without repetition, two sublists with the same elements are
    the same sublist. *)
Lemma subseq_NoDup_members {A : Type} (s t1 t2 : list A) :
  NoDup s -> subseq t1 s -> subseq t2 s ->
  (forall x, In x t1 <-> In x t2) -> t1 = t2.
Proof.
  intros Hnd H1. revert t2. induction H1 as [| x t l H1 IH | x t l H1 IH];
    intros t2 H2 Hm.
  - inversion H2. reflexivity.
  - inversion Hnd as [| ? ? Hx Hnd']; subst.
    inversion H2 as [| ? t2' ? H2' | ? ? ? H2']; subst.
    + f_equal. apply IH; [exact Hnd' | exact H2' |].
      intros y. split; intros Hy.
      * destruct (proj1 (Hm y) (or_intror Hy)) as [E | Hy']; [| exact Hy'].
        subst y. elim Hx. now apply (subseq_incl l t).
      * destruct (proj2 (Hm y) (or_intror Hy)) as [E | Hy']; [| exact Hy'].
        subst y. elim Hx. now apply (subseq_incl l t2').
    + elim Hx. apply (subseq_incl l t2); [exact H2' |].
      apply Hm. now left.
  - inversion Hnd as [| ? ? Hx Hnd']; subst.
    inversion H2 as [| ? t2' ? H2' | ? ? ? H2']; subst.
    + elim Hx. apply (subseq_incl l t); [exact H1 |].
      apply Hm. now left.
    + now apply IH.
Qed.

Lemma NoDup_map_cons {A : Type} (x : A) (l : list (list A)) :
  NoDup l -> NoDup (map (cons x) l).
Proof.
  induction 1 as [| t l Ht _ IH]; cbn [map]; constructor; [| exact IH].
  intros H. apply in_map_iff in H. destruct H as [t' [E H]].
  inversion E; subst. contradiction.
Qed.

Lemma NoDup_combinations {A : Type} (s : list A) (r : nat) :
  NoDup s -> NoDup (combinations s r).
Proof.
  intros Hnd. revert r. induction Hnd as [| x s Hx Hnd IH]; intros r.
  - destruct r; cbn; repeat constructor. easy.
  - destruct r as [| r]; [cbn; repeat constructor; easy |].
    cbn [combinations]. apply NoDup_app.
    + apply NoDup_map_cons, IH.
    + apply IH.
    + intros t Hl Hr. apply in_map_iff in Hl. destruct Hl as [t' [E _]].
      subst t. apply combinations_subseq in Hr. elim Hx.
      apply (subseq_incl s (x :: t')); [exact Hr | now left].
Qed.

Lemma NoDup_flat_map_seq {A : Type} (f : nat -> list A) (start len : nat) :
  (forall r, NoDup (f r)) ->
  (forall r r' x, In x (f r) -> In x (f r') -> r = r') ->
  NoDup (flat_map f (seq start len)).
Proof.
  intros Hnd Hdisj. revert start. induction len as [| len IH]; intros start.
  - constructor.
  - cbn [seq flat_map]. apply NoDup_app.
    + apply Hnd.
    + apply IH.
    + intros x Hx Hin. apply in_flat_map in Hin.
      destruct Hin as [r' [Hr' Hx']]. apply in_seq in Hr'.
      pose proof (Hdisj _ _ _ Hx Hx'). lia.
Qed.

Lemma length_flat_map_sum {A B : Type} (f : A -> list B) (l : list A) :
  List.length (flat_map f l)
  = list_sum (map (fun x => List.length (f x)) l).
Proof.
  unfold list_sum. induction l as [| x l IH]; [reflexivity |].
  cbn [flat_map map fold_right]. now rewrite length_app, IH.
Qed.

Lemma combinations_0 {A : Type} (s : list A) : combinations s 0 = [[]].
Proof. destruct s; reflexivity. Qed.

Lemma list_sum_map_add {A : Type} (f g : A -> nat) (l : list A) :
  list_sum (map (fun x => (f x + g x)%nat) l)
  = (list_sum (map f l) + list_sum (map g l))%nat.
Proof.
  unfold list_sum. induction l as [| x l IH]; [reflexivity |].
  cbn [map fold_right]. rewrite IH. lia.
Qed.

Lemma count_below_S {A : Type} (s : list A) (m : nat) :
  count_below s (S m)
  = (1 + list_sum
           (map (fun r => List.length (combinations s (S r))) (seq 0 m)))%nat.
Proof.
  unfold count_below. cbn [seq map list_sum].
  rewrite combinations_0, <- seq_shift, map_map. reflexivity.
Qed.

Lemma count_below_cons {A : Type} (x : A) (s : list A) (m : nat) :
  count_below (x :: s) (S m) = (count_below s m + count_below s (S m))%nat.
Proof.
  rewrite !count_below_S. cbn [combinations].
  rewrite (map_ext
             (fun r => List.length
                         (map (cons x) (combinations s r)
                          ++ combinations s (S r)))
             (fun r => (List.length (combinations s r)
                        + List.length (combinations s (S r)))%nat))
    by (intros r; now rewrite length_app, length_map).
  rewrite list_sum_map_add. unfold count_below. lia.
Qed.

Lemma count_below_all {A : Type} (s : list A) (m : nat) :
  (List.length s < m)%nat -> count_below s m = (2 ^ List.length s)%nat.
Proof.
  revert m. induction s as [| x s IH]; intros m Hm.
  - destruct m as [| m]; [lia |]. rewrite count_below_S.
    rewrite (map_ext (fun r => List.length (@combinations A [] (S r)))
               (fun _ => 0%nat)) by reflexivity.
    clear Hm. generalize (seq 0 m). intros l.
    induction l as [| y l IHl]; [reflexivity |]. cbn in *. exact IHl.
  - destruct m as [| m]; [cbn in Hm; lia |]. cbn [List.length] in *.
    rewrite count_below_cons, (IH m), (IH (S m)) by lia.
    cbn [Nat.pow]. lia.
Qed.

Lemma flat_map_seq_order {A : Type} (f : nat -> list A) (start len i j : nat)
    (x y : A) :
  nth_error (flat_map f (seq start len)) i = Some x ->
  nth_error (flat_map f (seq start len)) j = Some y ->
  (i <= j)%nat ->
  exists r1 r2, (r1 <= r2)%nat /\ In x (f r1) /\ In y (f r2).
Proof.
  revert start i j. induction len as [| len IH]; intros start i j Hx Hy Hij.
  - destruct i; discriminate Hx.
  - cbn [seq flat_map] in Hx, Hy.
    destruct (Nat.lt_ge_cases i (List.length (f start))) as [Hi | Hi].
    + rewrite nth_error_app1 in Hx by exact Hi. apply nth_error_In in Hx.
      destruct (Nat.lt_ge_cases j (List.length (f start))) as [Hj | Hj].
      * rewrite nth_error_app1 in Hy by exact Hj. apply nth_error_In in Hy.
        exists start, start. now repeat split.
      * rewrite nth_error_app2 in Hy by exact Hj. apply nth_error_In in Hy.
        apply in_flat_map in Hy. destruct Hy as [r2 [Hr2 Hy]].
        apply in_seq in Hr2. exists start, r2. repeat split; [lia | | ];
          assumption.
    + rewrite nth_error_app2 in Hx by exact Hi.
      rewrite nth_error_app2 in Hy by lia.
      apply (IH (S start) _ _ Hx Hy). lia.
Qed.

Section PowersetFacts.

Variable set_iter : pyset -> list string.
Hypothesis set_iter_perm : forall s, Permutation (set_iter s) s.

Lemma powerset_subseq (s t : pyset) :
  In t (powerset set_iter s) <-> subseq t (set_iter s).
Proof.
  unfold powerset. rewrite in_flat_map. split.
  - intros [r [_ H]]. now apply combinations_subseq in H.
  - intros H. exists (List.length t). split.
    + apply in_seq. pose proof (subseq_length _ _ H). lia.
    + now apply subseq_combinations.
Qed.

(** X1: every subset [powerset] lists is a sublist of the iteration order
    of the set, so it is made of members of the set. *)
Theorem powerset_lists_sublists (s t : pyset) (x : string) :
  In t (powerset set_iter s) -> In x t ->
  subseq t (set_iter s) /\ In x s.
Proof.
  intros H Hx. apply powerset_subseq in H. split; [exact H |].
  apply (Permutation_in x (set_iter_perm s)).
  now apply (subseq_incl (set_iter s) t).
Qed.

(** X2: and it lists all of them: whatever test picks members of the set,
    the members picked, in iteration order, are one of the subsets. *)
Theorem powerset_complete (s : pyset) (keep : string -> bool) :
  exists t,
    In t (powerset set_iter s)
    /\ forall x, mem x t = mem x s && keep x.
Proof.
  exists (filter keep (set_iter s)). split.
  - apply powerset_subseq.
    induction (set_iter s) as [| y l IH]; [constructor |].
    cbn [filter]. destruct (keep y); now constructor.
  - intros x. destruct (mem x s && keep x) eqn:E.
    + apply andb_true_iff in E. destruct E as [Hs Hk].
      apply mem_In. apply filter_In. split; [| exact Hk].
      apply (Permutation_in x (Permutation_sym (set_iter_perm s))).
      now apply mem_In.
    + apply mem_false. intros H. apply filter_In in H. destruct H as [Hs Hk].
      apply (Permutation_in x (set_iter_perm s)) in Hs.
      apply mem_In in Hs. rewrite Hs, Hk in E. discriminate E.
Qed.

(** X3: a set of [n] elements has [2 ^ n] entries in its [powerset]. *)
Theorem powerset_length (s : pyset) :
  List.length (powerset set_iter s) = (2 ^ List.length s)%nat.
Proof.
  unfold powerset. cbv zeta. rewrite length_flat_map_sum.
  change (list_sum _)
    with (count_below (set_iter s) (List.length (set_iter s) + 1)).
  rewrite count_below_all by lia.
  now rewrite (Permutation_length (set_iter_perm s)).
Qed.

(** X4: for a set without repeated elements no subset is listed twice, not
    even as two lists with the same members. *)
Theorem powerset_no_repeat (s t1 t2 : pyset) :
  NoDup s ->
  In t1 (powerset set_iter s) -> In t2 (powerset set_iter s) ->
  same_members t1 t2 ->
  NoDup (powerset set_iter s) /\ t1 = t2.
Proof.
  intros Hnd H1 H2 Hm.
  assert (Hnd' : NoDup (set_iter s))
    by (apply (Permutation_NoDup (Permutation_sym (set_iter_perm s)) Hnd)).
  split.
  - unfold powerset. apply NoDup_flat_map_seq.
    + intros r. now apply NoDup_combinations.
    + intros r r' t Hr Hr'. apply combinations_length in Hr, Hr'. congruence.
  - apply powerset_subseq in H1, H2.
    apply (subseq_NoDup_members (set_iter s)); try assumption.
    intros x. rewrite <- !mem_In. now rewrite (Hm x).
Qed.

(** X5: the subsets come by size: the first subset listed is the empty
    one, and along [powerset] the sizes never decrease. *)
Theorem powerset_by_size (s : pyset) (i j : nat) (t1 t2 : pyset) :
  (i <= j)%nat ->
  nth_error (powerset set_iter s) i = Some t1 ->
  nth_error (powerset set_iter s) j = Some t2 ->
  nth_error (powerset set_iter s) 0 = Some []
  /\ (List.length t1 <= List.length t2)%nat.
Proof.
  intros Hij H1 H2. split.
  - unfold powerset. cbv zeta. rewrite Nat.add_1_r. cbn [seq flat_map].
    now rewrite combinations_0.
  - unfold powerset in H1, H2.
    destruct (flat_map_seq_order _ _ _ _ _ _ _ H1 H2 Hij)
      as [r1 [r2 [Hr [Hin1 Hin2]]]].
    apply combinations_length in Hin1, Hin2. lia.
Qed.

End PowersetFacts.

(** ** More on [joint_probability] *)

Lemma Qcle_by_bool (x y : num) : Qle_bool x y = true -> x <= y.
Proof. intros H. unfold Qcle. now apply Qle_bool_iff. Qed.

Lemma spec_inherit_le_1 (a b c : nat) :
  (a <= 2)%nat -> (b <= 2)%nat -> (c <= 2)%nat ->
  spec_inherit (spec_transmit a) (spec_transmit b) c <= 1.
Proof.
  intros Ha Hb Hc.
  destruct a as [| [| [| a]]]; [| | | lia];
    destruct b as [| [| [| b]]]; try lia;
    destruct c as [| [| [| c]]]; try lia;
    apply Qcle_by_bool; vm_compute; reflexivity.
Qed.

Lemma PROBS_gene_le_1 (g : nat) : PROBS_gene g <= 1.
Proof.
  destruct g as [| [| [| g]]]; apply Qcle_by_bool; vm_compute; reflexivity.
Qed.

Lemma PROBS_trait_le_1 (g : nat) (t : bool) : PROBS_trait g t <= 1.
Proof.
  destruct g as [| [| [| g]]]; destruct t;
    apply Qcle_by_bool; vm_compute; reflexivity.
Qed.

Lemma gene_factor_le_1 (one_gene two_genes : pyset) (info : person) (g : nat) :
  (g <= 2)%nat -> gene_factor one_gene two_genes info g <= 1.
Proof.
  intros Hg.
  destruct (mother info) as [m |] eqn:Hm; [destruct (father info) as [f |] eqn:Hf |].
  - rewrite (gene_factor_parents _ _ _ m f g Hm Hf).
    apply spec_inherit_le_1; try apply person_gene_count_range.
    destruct (Nat.leb g 2); lia.
  - unfold gene_factor. rewrite Hm, Hf. apply PROBS_gene_le_1.
  - unfold gene_factor. rewrite Hm. apply PROBS_gene_le_1.
Qed.

Lemma Qcmult_le_1 (x y : num) : 0 <= x -> x <= 1 -> 0 <= y -> y <= 1 -> x * y <= 1.
Proof.
  intros Hx0 Hx1 Hy0 Hy1. apply Qcle_trans with (1 * y).
  - now apply Qcmult_le_compat_r.
  - now rewrite Qcmult_1_l.
Qed.

Lemma row_factor_pos (one_gene two_genes have_trait : pyset)
    (entry : string * person) :
  0 < row_factor one_gene two_genes have_trait entry.
Proof.
  unfold row_factor. apply Qcmult_pos.
  - apply gene_factor_pos, person_gene_count_range.
  - apply PROBS_trait_pos, person_gene_count_range.
Qed.

Lemma row_factor_le_1 (one_gene two_genes have_trait : pyset)
    (entry : string * person) :
  row_factor one_gene two_genes have_trait entry <= 1.
Proof.
  unfold row_factor. apply Qcmult_le_1.
  - apply Qclt_le_weak, gene_factor_pos, person_gene_count_range.
  - apply gene_factor_le_1, person_gene_count_range.
  - apply Qclt_le_weak, PROBS_trait_pos, person_gene_count_range.
  - apply PROBS_trait_le_1.
Qed.

Lemma joint_fold_factor (one_gene two_genes have_trait : pyset)
    (people : people_t) (acc : num) :
  fold_left (joint_step one_gene two_genes have_trait) people acc
  = acc * product (map (row_factor one_gene two_genes have_trait) people).
Proof.
  revert acc. induction people as [| e people IH]; intros acc.
  - cbn. ring.
  - cbn [fold_left map product fold_right]. rewrite IH.
    fold (product (map (row_factor one_gene two_genes have_trait) people)).
    unfold joint_step, row_factor. ring.
Qed.

Lemma joint_probability_factor (people : people_t)
    (one_gene two_genes have_trait : pyset) :
  joint_probability people one_gene two_genes have_trait
  = product (map (row_factor one_gene two_genes have_trait) people).
Proof. unfold joint_probability. rewrite joint_fold_factor. ring. Qed.

Lemma product_app (l1 l2 : list num) :
  product (l1 ++ l2) = product l1 * product l2.
Proof.
  induction l1 as [| x l1 IH]; cbn [app product fold_right].
  - fold (product l2). ring.
  - fold (product (l1 ++ l2)) (product l1). rewrite IH. ring.
Qed.

Lemma product_perm (l1 l2 : list num) :
  Permutation l1 l2 -> product l1 = product l2.
Proof.
  induction 1 as [| x l l' _ IH | x y l | l l' l'' _ IH1 _ IH2].
  - reflexivity.
  - cbn [product fold_right]. fold (product l) (product l'). now rewrite IH.
  - cbn [product fold_right]. fold (product l). ring.
  - congruence.
Qed.

Lemma product_bounds (l : list num) :
  Forall (fun x => 0 < x /\ x <= 1) l -> 0 < product l /\ product l <= 1.
Proof.
  induction 1 as [| x l [Hx0 Hx1] _ [IH0 IH1]].
  - split; [reflexivity | apply Qcle_refl].
  - cbn [product fold_right]. fold (product l). split.
    + now apply Qcmult_pos.
    + apply Qcmult_le_1; try assumption; now apply Qclt_le_weak.
Qed.

(** X6: in exact arithmetic a joint probability is a probability and never
    zero: for every family and every assignment it is above 0 and at most
    1.  (In binary64 the product of many rows can underflow to 0.) *)
Theorem joint_probability_bounds (people : people_t)
    (one_gene two_genes have_trait : pyset) :
  0 < joint_probability people one_gene two_genes have_trait
  /\ joint_probability people one_gene two_genes have_trait <= 1.
Proof.
  rewrite joint_probability_factor. apply product_bounds.
  apply Forall_forall. intros x Hx. apply in_map_iff in Hx.
  destruct Hx as [e [E _]]. subst x.
  split; [apply row_factor_pos | apply row_factor_le_1].
Qed.

(** X7: in exact arithmetic the rows of the family contribute
    independently: the joint probability of two lists of rows put together
    is the product of theirs, and the empty family has joint probability
    1. *)
Theorem joint_probability_rows (people people' : people_t)
    (one_gene two_genes have_trait : pyset) :
  joint_probability [] one_gene two_genes have_trait = 1
  /\ joint_probability (people ++ people') one_gene two_genes have_trait
     = joint_probability people one_gene two_genes have_trait
       * joint_probability people' one_gene two_genes have_trait.
Proof.
  split; [reflexivity |].
  rewrite !joint_probability_factor, map_app. apply product_app.
Qed.

(** X8: in exact arithmetic the order of the rows of the family does not
    change the joint probability. *)
Theorem joint_probability_row_order (people people' : people_t)
    (one_gene two_genes have_trait : pyset) :
  Permutation people people' ->
  joint_probability people one_gene two_genes have_trait
  = joint_probability people' one_gene two_genes have_trait.
Proof.
  intros H. rewrite !joint_probability_factor. apply product_perm.
  now apply Permutation_map.
Qed.

Lemma person_gene_count_members (one_gene two_genes one_gene' two_genes' : pyset)
    (who : string) :
  same_members one_gene one_gene' -> same_members two_genes two_genes' ->
  person_gene_count one_gene two_genes who
  = person_gene_count one_gene' two_genes' who.
Proof.
  intros H1 H2. unfold person_gene_count. now rewrite (H1 who), (H2 who).
Qed.

Lemma parent_table_members (one_gene two_genes one_gene' two_genes' : pyset)
    (parents : list string) :
  same_members one_gene one_gene' -> same_members two_genes two_genes' ->
  parent_gene_inheritance_probability one_gene two_genes parents
  = parent_gene_inheritance_probability one_gene' two_genes' parents.
Proof.
  intros H1 H2. unfold parent_gene_inheritance_probability.
  apply fold_left_ext. intros table parent.
  now rewrite (H1 parent), (H2 parent).
Qed.

Lemma joint_probability_members (people : people_t)
    (one_gene two_genes have_trait one_gene' two_genes' have_trait' : pyset) :
  same_members one_gene one_gene' ->
  same_members two_genes two_genes' ->
  same_members have_trait have_trait' ->
  joint_probability people one_gene two_genes have_trait
  = joint_probability people one_gene' two_genes' have_trait'.
Proof.
  intros H1 H2 H3.
  unfold joint_probability. apply fold_left_ext. intros acc [who info].
  unfold joint_step, gene_factor. cbn [fst snd].
  rewrite (person_gene_count_members _ _ _ _ who H1 H2), (H3 who).
  destruct (mother info), (father info); try reflexivity.
  now rewrite (parent_table_members _ _ _ _ _ H1 H2).
Qed.

(** X9: the three sets matter through their members only: two assignments
    whose sets have the same members, in whatever order the members are
    held, get the same joint probability and the same [update]. *)
Theorem assignment_by_members (people : people_t)
    (probabilities : probabilities_t) (p : num)
    (one_gene two_genes have_trait one_gene' two_genes' have_trait' : pyset) :
  same_members one_gene one_gene' ->
  same_members two_genes two_genes' ->
  same_members have_trait have_trait' ->
  joint_probability people one_gene two_genes have_trait
  = joint_probability people one_gene' two_genes' have_trait'
  /\ update probabilities one_gene two_genes have_trait p
     = update probabilities one_gene' two_genes' have_trait' p.
Proof.
  intros H1 H2 H3. split.
  - now apply joint_probability_members.
  - unfold update. apply map_ext. intros [who d]. unfold update_person.
    cbn [fst snd].
    now rewrite (person_gene_count_members _ _ _ _ who H1 H2), (H3 who).
Qed.

(** ** More on [update] *)

Lemma gene_add_comm (d : gene_dist) (g g' : nat) (p q : num) :
  gene_add (gene_add d g p) g' q = gene_add (gene_add d g' q) g p.
Proof.
  destruct g as [| [| [| g]]]; destruct g' as [| [| [| g']]];
    unfold gene_add; cbn [gene2 gene1 gene0]; f_equal; ring.
Qed.

Lemma trait_add_comm (d : trait_dist) (t t' : bool) (p q : num) :
  trait_add (trait_add d t p) t' q = trait_add (trait_add d t' q) t p.
Proof.
  destruct t, t'; unfold trait_add; cbn [trait_true trait_false];
    f_equal; ring.
Qed.

Lemma update_comm (probabilities : probabilities_t)
    (o t h o' t' h' : pyset) (p q : num) :
  update (update probabilities o t h p) o' t' h' q
  = update (update probabilities o' t' h' q) o t h p.
Proof.
  unfold update. rewrite !map_map. apply map_ext. intros [who d].
  unfold update_person. cbn [fst snd gene trait_d].
  now rewrite gene_add_comm, trait_add_comm.
Qed.

(** X10: in exact arithmetic the order of the [update] calls is
    irrelevant: the same calls made in another order leave the same belief
    state. *)
Theorem updates_in_any_order (calls calls' : list (pyset * pyset * pyset * num))
    (probabilities : probabilities_t) :
  Permutation calls calls' ->
  run_updates calls probabilities = run_updates calls' probabilities.
Proof.
  intros H. revert probabilities.
  induction H as [| c l l' _ IH | c c' l | l l' l'' _ IH1 _ IH2];
    intros probabilities.
  - reflexivity.
  - unfold run_updates in *. cbn [fold_left]. apply IH.
  - unfold run_updates. cbn [fold_left].
    destruct c as [[[o t] h] p], c' as [[[o' t'] h'] q].
    now rewrite update_comm.
  - now rewrite IH1, IH2.
Qed.

Lemma total_cons (p : num) (ps : list num) : total (p :: ps) = p + total ps.
Proof. reflexivity. Qed.

Lemma person_run_gene (who : string)
    (calls : list (pyset * pyset * pyset * num)) (d : distribution) (g : nat) :
  (g <= 2)%nat ->
  gene_at (gene (person_run who calls d)) g
  = gene_at (gene d) g + gene_mass who g calls.
Proof.
  intros Hg. revert d.
  induction calls as [| [[[o t] h] p] calls IH]; intros d.
  - cbn. ring.
  - unfold person_run in *. cbn [fold_left]. rewrite IH.
    cbn [update_person fst snd gene].
    rewrite gene_at_add by (try apply person_gene_count_range; exact Hg).
    unfold gene_mass. cbn [filter fst snd]. rewrite (Nat.eqb_sym g).
    destruct (Nat.eqb (person_gene_count o t who) g).
    + cbn [map snd]. rewrite total_cons. ring.
    + ring.
Qed.

Lemma person_run_trait (who : string)
    (calls : list (pyset * pyset * pyset * num)) (d : distribution) (b : bool) :
  trait_at (trait_d (person_run who calls d)) b
  = trait_at (trait_d d) b + trait_mass who b calls.
Proof.
  revert d. induction calls as [| [[[o t] h] p] calls IH]; intros d.
  - cbn. ring.
  - unfold person_run in *. cbn [fold_left]. rewrite IH.
    cbn [update_person fst snd trait_d]. rewrite trait_at_add.
    unfold trait_mass. cbn [filter fst snd].
    replace (Bool.eqb b (mem who h)) with (Bool.eqb (mem who h) b)
      by (destruct b, (mem who h); reflexivity).
    destruct (Bool.eqb (mem who h) b).
    + cbn [map snd]. rewrite total_cons. ring.
    + ring.
Qed.

(** X11: the buckets are marginals: after any run of [update] calls from the
    all-zero state, the bucket of a person for gene count [g] holds the
    mass of exactly the calls whose assignment gives that person [g]
    copies, and the bucket for a trait value the mass of the calls whose
    trait set agrees with it. *)
Theorem updates_accumulate_marginals (people : people_t)
    (calls : list (pyset * pyset * pyset * num))
    (who : string) (info : person) :
  dict_get people who = Some info ->
  exists d,
    dict_get (run_updates calls (initial people)) who = Some d
    /\ (forall g, (g <= 2)%nat -> gene_at (gene d) g = gene_mass who g calls)
    /\ (forall t, trait_at (trait_d d) t = trait_mass who t calls).
Proof.
  intros Hget.
  exists (person_run who calls (mkDist (mkGene 0 0 0) (mkTrait 0 0))).
  split; [| split].
  - rewrite run_updates_person.
    rewrite (dict_get_map (fun k v => person_run k calls v)).
    unfold initial.
    rewrite (dict_get_map (fun _ _ => mkDist (mkGene 0 0 0) (mkTrait 0 0))).
    now rewrite Hget.
  - intros g Hg. rewrite person_run_gene by exact Hg.
    destruct g as [| [| [| g]]]; cbn [gene gene_at gene2 gene1 gene0]; ring.
  - intros t. rewrite person_run_trait.
    destruct t; cbn [trait_d trait_at trait_true trait_false]; ring.
Qed.

(** ** More on [normalize] *)

Lemma normalize_Ok_inv (probabilities probabilities' : probabilities_t) :
  normalize probabilities = Ok probabilities' ->
  Forall (fun entry => nonzero_sums (snd entry)) probabilities
  /\ probabilities'
     = map (fun entry => (fst entry, normalized (snd entry))) probabilities.
Proof.
  revert probabilities'.
  induction probabilities as [| [who d] rest IH]; intros probabilities' H.
  - cbn in H. inversion H. split; [constructor | reflexivity].
  - cbn [normalize] in H.
    destruct (Qc_eq_dec (gene_sum (gene d)) 0) as [Eg | Ng].
    { rewrite normalize_person_zero in H; [discriminate H |].
      now intros [N _]. }
    destruct (Qc_eq_dec (trait_sum (trait_d d)) 0) as [Et | Nt].
    { rewrite normalize_person_zero in H; [discriminate H |].
      now intros [_ N]. }
    rewrite normalize_person_ok in H by now split. cbn [bind] in H.
    destruct (normalize rest) as [rest' | e] eqn:E; [| discriminate H].
    cbn [bind] in H. inversion H; subst.
    destruct (IH rest' eq_refl) as [Hall Hrest]. split.
    + constructor; [now split | exact Hall].
    + cbn [map fst snd]. now rewrite Hrest.
Qed.

Lemma normalized_of_unit_sums (d : distribution) :
  gene_sum (gene d) = 1 -> trait_sum (trait_d d) = 1 -> normalized d = d.
Proof.
  intros Hg Ht. unfold normalized. rewrite Hg, Ht.
  destruct d as [[g2 g1 g0] [tt tf]]. cbn [gene trait_d gene2 gene1 gene0
    trait_true trait_false].
  f_equal; f_equal; unfold Qcdiv; field; discriminate.
Qed.

(** X12: in exact arithmetic normalizing twice is normalizing once: what
    [normalize] returns is returned unchanged by a second [normalize]. *)
Theorem normalize_idempotent (probabilities probabilities' : probabilities_t) :
  normalize probabilities = Ok probabilities' ->
  normalize probabilities' = Ok probabilities'.
Proof.
  intros H. apply normalize_Ok_inv in H. destruct H as [Hall E]. subst.
  rewrite normalize_ok.
  - apply f_equal. rewrite map_map. apply map_ext_in. intros [who d] Hin.
    cbn [fst snd]. apply f_equal. rewrite Forall_forall in Hall.
    destruct (Hall _ Hin) as [Hg Ht]. cbn [snd] in Hg, Ht.
    apply normalized_of_unit_sums.
    + now apply normalized_gene_sum.
    + now apply normalized_trait_sum.
  - apply Forall_forall. intros e He. apply in_map_iff in He.
    destruct He as [[who d] [E Hin]]. subst e. cbn [fst snd].
    rewrite Forall_forall in Hall. destruct (Hall _ Hin) as [Hg Ht].
    cbn [snd] in Hg, Ht. split.
    + rewrite normalized_gene_sum by exact Hg. discriminate.
    + rewrite normalized_trait_sum by exact Ht. discriminate.
Qed.

Lemma gene_sum_scale (c : num) (d : distribution) :
  gene_sum (gene (scale c d)) = c * gene_sum (gene d).
Proof. unfold scale, gene_sum. cbn [gene gene2 gene1 gene0]. ring. Qed.

Lemma trait_sum_scale (c : num) (d : distribution) :
  trait_sum (trait_d (scale c d)) = c * trait_sum (trait_d d).
Proof. unfold scale, trait_sum. cbn [trait_d trait_true trait_false]. ring. Qed.

Lemma Qcmult_nonzero (x y : num) : x <> 0 -> y <> 0 -> x * y <> 0.
Proof.
  intros Hx Hy E. apply Qcmult_integral in E. destruct E; contradiction.
Qed.

Lemma normalize_person_scale (c : num) (d : distribution) :
  c <> 0 -> normalize_person (scale c d) = normalize_person d.
Proof.
  intros Hc.
  destruct (Qc_eq_dec (gene_sum (gene d)) 0) as [Eg | Ng].
  { rewrite !normalize_person_zero; [reflexivity | |]; intros [N _].
    - contradiction.
    - apply N. rewrite gene_sum_scale, Eg. ring. }
  destruct (Qc_eq_dec (trait_sum (trait_d d)) 0) as [Et | Nt].
  { rewrite !normalize_person_zero; [reflexivity | |]; intros [_ N].
    - contradiction.
    - apply N. rewrite trait_sum_scale, Et. ring. }
  rewrite !normalize_person_ok.
  - f_equal. unfold normalized.
    rewrite gene_sum_scale, trait_sum_scale.
    unfold scale. cbn [gene trait_d gene2 gene1 gene0 trait_true trait_false].
    f_equal; f_equal; field; split; assumption.
  - now split.
  - split.
    + rewrite gene_sum_scale. now apply Qcmult_nonzero.
    + rewrite trait_sum_scale. now apply Qcmult_nonzero.
Qed.

(** X13: in exact arithmetic only the proportions count: multiplying every
    bucket of every person by one non-zero factor does not change what
    [normalize] returns, nor whether it raises. *)
Theorem normalize_scale_invariant (c : num) (probabilities : probabilities_t) :
  c <> 0 -> normalize (scale_all c probabilities) = normalize probabilities.
Proof.
  intros Hc. induction probabilities as [| [who d] rest IH]; [reflexivity |].
  cbn [scale_all map normalize fst snd].
  rewrite normalize_person_scale by exact Hc.
  fold (scale_all c rest). now rewrite IH.
Qed.

(** ** More on [main] *)

Lemma Qcinv_pos (x : num) : 0 < x -> 0 < / x.
Proof.
  unfold Qclt. intros H.
  change (this (/ x)) with (Qred (/ this x)). rewrite Qred_correct.
  now apply Qinv_lt_0_compat.
Qed.

Lemma Qcdiv_bounds (x s : num) :
  0 <= x -> x <= s -> 0 < s -> 0 <= x / s /\ x / s <= 1.
Proof.
  intros Hx Hxs Hs. pose proof (Qclt_le_weak _ _ (Qcinv_pos s Hs)) as Hi.
  unfold Qcdiv. split.
  - rewrite <- (Qcmult_0_l (/ s)). now apply Qcmult_le_compat_r.
  - rewrite <- (Qcmult_inv_r s) by now apply Qc_pos_nonzero.
    now apply Qcmult_le_compat_r.
Qed.

Lemma Qcle_plus_r (x y : num) : 0 <= y -> x <= x + y.
Proof.
  intros H. rewrite <- (Qcplus_0_r x) at 1.
  apply Qcplus_le_compat; [apply Qcle_refl | exact H].
Qed.

Lemma Qcplus_nonneg (x y : num) : 0 <= x -> 0 <= y -> 0 <= x + y.
Proof.
  intros Hx Hy. apply Qcle_trans with x; [exact Hx | now apply Qcle_plus_r].
Qed.

Lemma Qc_nonneg_nonzero_pos (x : num) : 0 <= x -> x <> 0 -> 0 < x.
Proof.
  intros H N. destruct (Qcle_lt_or_eq _ _ H) as [L | E]; [exact L |].
  now elim N.
Qed.

Lemma normalized_within (d : distribution) :
  nonneg_buckets d -> nonzero_sums d -> buckets_within 0 1 (normalized d).
Proof.
  intros [H2 [H1 [H0 [Ht Hf]]]] [Ng Nt].
  assert (Hgs : 0 < gene_sum (gene d)).
  { apply Qc_nonneg_nonzero_pos; [| exact Ng]. unfold gene_sum.
    rewrite Qcplus_0_l. now repeat apply Qcplus_nonneg. }
  assert (Hts : 0 < trait_sum (trait_d d)).
  { apply Qc_nonneg_nonzero_pos; [| exact Nt]. unfold trait_sum.
    rewrite Qcplus_0_l. now apply Qcplus_nonneg. }
  assert (G2 : gene2 (gene d) <= gene_sum (gene d)).
  { unfold gene_sum.
    replace (0 + gene2 (gene d) + gene1 (gene d) + gene0 (gene d))
      with (gene2 (gene d) + (gene1 (gene d) + gene0 (gene d))) by ring.
    apply Qcle_plus_r. now apply Qcplus_nonneg. }
  assert (G1 : gene1 (gene d) <= gene_sum (gene d)).
  { unfold gene_sum.
    replace (0 + gene2 (gene d) + gene1 (gene d) + gene0 (gene d))
      with (gene1 (gene d) + (gene2 (gene d) + gene0 (gene d))) by ring.
    apply Qcle_plus_r. now apply Qcplus_nonneg. }
  assert (G0 : gene0 (gene d) <= gene_sum (gene d)).
  { unfold gene_sum.
    replace (0 + gene2 (gene d) + gene1 (gene d) + gene0 (gene d))
      with (gene0 (gene d) + (gene2 (gene d) + gene1 (gene d))) by ring.
    apply Qcle_plus_r. now apply Qcplus_nonneg. }
  assert (Tt : trait_true (trait_d d) <= trait_sum (trait_d d)).
  { unfold trait_sum.
    replace (0 + trait_true (trait_d d) + trait_false (trait_d d))
      with (trait_true (trait_d d) + trait_false (trait_d d)) by ring.
    now apply Qcle_plus_r. }
  assert (Tf : trait_false (trait_d d) <= trait_sum (trait_d d)).
  { unfold trait_sum.
    replace (0 + trait_true (trait_d d) + trait_false (trait_d d))
      with (trait_false (trait_d d) + trait_true (trait_d d)) by ring.
    now apply Qcle_plus_r. }
  unfold buckets_within, normalized. cbn [gene trait_d]. split.
  - intros g. destruct g as [| [| [| g]]]; cbn [gene_at gene2 gene1 gene0];
      now apply Qcdiv_bounds.
  - intros t. destruct t; cbn [trait_at trait_true trait_false];
      now apply Qcdiv_bounds.
Qed.

Lemma total_nonneg (ps : list num) : Forall (fun p => 0 < p) ps -> 0 <= total ps.
Proof.
  induction 1 as [| p ps Hp _ IH]; [apply Qcle_refl |].
  rewrite total_cons. apply Qcplus_nonneg; [now apply Qclt_le_weak | exact IH].
Qed.

Lemma Forall_filter_map_snd {A : Type} (P : num -> Prop) (f : A * num -> bool)
    (l : list (A * num)) :
  Forall P (map snd l) -> Forall P (map snd (filter f l)).
Proof.
  rewrite !Forall_forall. intros H p Hp. apply in_map_iff in Hp.
  destruct Hp as [c [E Hc]]. apply filter_In in Hc. destruct Hc as [Hc _].
  apply H. apply in_map_iff. now exists c.
Qed.

Lemma person_run_nonneg (who : string)
    (calls : list (pyset * pyset * pyset * num)) :
  Forall (fun p => 0 < p) (map snd calls) ->
  nonneg_buckets (person_run who calls (mkDist (mkGene 0 0 0) (mkTrait 0 0))).
Proof.
  intros H.
  assert (G : forall g, (g <= 2)%nat ->
            0 <= gene_at
                   (gene (person_run who calls
                            (mkDist (mkGene 0 0 0) (mkTrait 0 0)))) g).
  { intros g Hg. rewrite person_run_gene by exact Hg.
    apply Qcplus_nonneg.
    - destruct g as [| [| [| g]]]; apply Qcle_refl.
    - unfold gene_mass. apply total_nonneg. now apply Forall_filter_map_snd. }
  assert (T : forall b,
            0 <= trait_at
                   (trait_d (person_run who calls
                               (mkDist (mkGene 0 0 0) (mkTrait 0 0)))) b).
  { intros b. rewrite person_run_trait. apply Qcplus_nonneg.
    - destruct b; apply Qcle_refl.
    - unfold trait_mass. apply total_nonneg. now apply Forall_filter_map_snd. }
  unfold nonneg_buckets. repeat split.
  - apply (G 2%nat). lia.
  - apply (G 1%nat). lia.
  - apply (G 0%nat). lia.
  - apply (T true).
  - apply (T false).
Qed.

Lemma trait_mass_none (who : string) (b : bool)
    (calls : list (pyset * pyset * pyset * num)) :
  Forall (fun call => mem who (snd (fst call)) = negb b) calls ->
  trait_mass who b calls = 0.
Proof.
  induction 1 as [| c calls Hc _ IH]; [reflexivity |].
  unfold trait_mass in *. cbn [filter]. rewrite Hc.
  destruct b; cbn [negb Bool.eqb]; exact IH.
Qed.

Lemma FinFun_free_map {A B : Type} (f : A -> B) (l : list A) :
  NoDup l -> (forall x y, f x = f y -> x = y) -> NoDup (map f l).
Proof.
  intros H Hinj. induction H as [| x l Hx _ IH]; cbn [map]; constructor;
    [| exact IH].
  intros Hin. apply in_map_iff in Hin. destruct Hin as [y [E Hy]].
  apply Hinj in E. now subst.
Qed.

Lemma powerset_no_repeat_list (set_iter : pyset -> list string)
    (set_iter_perm : forall s, Permutation (set_iter s) s) (s : pyset) :
  NoDup s -> NoDup (powerset set_iter s).
Proof.
  intros Hnd.
  assert (Hnd' : NoDup (set_iter s))
    by (apply (Permutation_NoDup (Permutation_sym (set_iter_perm s)) Hnd)).
  unfold powerset. apply NoDup_flat_map_seq.
  - intros r. now apply NoDup_combinations.
  - intros r r' t Hr Hr'. apply combinations_length in Hr, Hr'. congruence.
Qed.

Section MainFacts.

Variable set_iter : pyset -> list string.
Hypothesis set_iter_perm : forall s, Permutation (set_iter s) s.

Lemma accumulate_entries (people : people_t) :
  accumulate set_iter people
  = map (fun entry =>
           (fst entry,
            person_run (fst entry)
              (map (score people) (scored set_iter people))
              (mkDist (mkGene 0 0 0) (mkTrait 0 0))))
        people.
Proof.
  rewrite (accumulate_run set_iter), run_updates_person.
  unfold initial. rewrite map_map. reflexivity.
Qed.

Lemma accumulate_get (people : people_t) (who : string) (info : person) :
  dict_get people who = Some info ->
  dict_get (accumulate set_iter people) who
  = Some (person_run who (map (score people) (scored set_iter people))
            (mkDist (mkGene 0 0 0) (mkTrait 0 0))).
Proof.
  intros Hget. rewrite accumulate_entries.
  rewrite (dict_get_map
             (fun k _ =>
                person_run k (map (score people) (scored set_iter people))
                  (mkDist (mkGene 0 0 0) (mkTrait 0 0)))).
  now rewrite Hget.
Qed.

Lemma accumulate_nonzero (people : people_t) :
  Forall (fun entry => nonzero_sums (snd entry)) (accumulate set_iter people).
Proof.
  pose proof (accumulate_balanced set_iter people) as H.
  pose proof (Qc_pos_nonzero _ (mass_pos set_iter set_iter_perm people)) as Hm.
  unfold balanced in H. rewrite Forall_forall in *. intros e He.
  destruct (H e He) as [Hg Ht]. split; congruence.
Qed.

(** X14: in exact arithmetic [main] always returns: for every family, in
    every iteration order of the sets, no division by zero occurs, the
    result has the family's names in the family's order, and for every
    person both distributions sum to 1 with every bucket between 0 and
    1. *)
Theorem main_returns_distributions (people : people_t) :
  exists probabilities,
    main set_iter people = Ok probabilities
    /\ keys probabilities = keys people
    /\ Forall
         (fun entry =>
            gene_sum (gene (snd entry)) = 1
            /\ trait_sum (trait_d (snd entry)) = 1
            /\ buckets_within 0 1 (snd entry))
         probabilities.
Proof.
  eexists. split; [apply (main_ok set_iter set_iter_perm) |]. split.
  - rewrite (keys_map_fst (fun entry => normalized (snd entry))).
    rewrite accumulate_entries.
    apply (keys_map_fst
             (fun entry =>
                person_run (fst entry)
                  (map (score people) (scored set_iter people))
                  (mkDist (mkGene 0 0 0) (mkTrait 0 0)))).
  - apply Forall_forall. intros e He. apply in_map_iff in He.
    destruct He as [[who d] [E Hin]]. subst e. cbn [fst snd].
    pose proof (accumulate_nonzero people) as Hnz.
    rewrite Forall_forall in Hnz. pose proof (Hnz _ Hin) as Hd.
    cbn [snd] in Hd. destruct Hd as [Hg Ht].
    split; [now apply normalized_gene_sum |].
    split; [now apply normalized_trait_sum |].
    apply normalized_within; [| now split].
    rewrite accumulate_entries in Hin. apply in_map_iff in Hin.
    destruct Hin as [[who' info] [E _]]. inversion E; subst.
    apply person_run_nonneg. apply (scores_pos set_iter).
Qed.


Lemma scored_agree (people : people_t) (who : string) (info : person)
    (b : bool) :
  dict_get people who = Some info -> trait info = Some b ->
  Forall (fun call => mem who (snd (fst call)) = b)
    (map (score people) (scored set_iter people)).
Proof.
  intros Hget Ht. apply Forall_forall. intros c Hc.
  apply in_map_iff in Hc. destruct Hc as [[[o t] h] [E Hin]]. subst c.
  cbn [score fst snd]. apply (scored_In set_iter) in Hin.
  destruct Hin as [_ [Hf _]].
  destruct (Bool.bool_dec (mem who h) b) as [E | N]; [exact E |].
  assert (Hc : contradicts_evidence people h).
  { exists who, info, b. repeat split; try assumption. congruence. }
  apply (fails_evidence_iff set_iter set_iter_perm) in Hc. congruence.
Qed.

(** X16: a person known not to show the trait comes out of [main] with
    probability 0 on [True] and 1 on [False]. *)
Theorem evidence_false_is_certain (people : people_t) (who : string)
    (info : person) :
  dict_get people who = Some info ->
  trait info = Some false ->
  exists probabilities d,
    main set_iter people = Ok probabilities
    /\ dict_get probabilities who = Some d
    /\ trait_true (trait_d d) = 0
    /\ trait_false (trait_d d) = 1.
Proof.
  intros Hget Ht.
  set (calls := map (score people) (scored set_iter people)).
  set (d := person_run who calls (mkDist (mkGene 0 0 0) (mkTrait 0 0))).
  assert (Hacc : dict_get (accumulate set_iter people) who = Some d)
    by (now apply (accumulate_get people who info)).
  assert (Htrue : trait_true (trait_d d) = 0).
  { change (trait_true (trait_d d)) with (trait_at (trait_d d) true).
    unfold d. rewrite person_run_trait.
    rewrite trait_mass_none by (apply (scored_agree people who info false);
                                assumption).
    cbn. ring. }
  assert (Hsum : trait_sum (trait_d d) <> 0).
  { pose proof (accumulate_nonzero people) as H.
    rewrite Forall_forall in H.
    now destruct (H (who, d) (dict_get_Some_In _ _ _ Hacc)). }
  exists (map (fun entry => (fst entry, normalized (snd entry)))
              (accumulate set_iter people)), (normalized d).
  split; [apply (main_ok set_iter set_iter_perm) |]. split.
  { rewrite (dict_get_map (fun _ v => normalized v)). now rewrite Hacc. }
  unfold normalized. cbn [trait_d trait_true trait_false].
  unfold trait_sum in *. rewrite Htrue in *. split.
  - unfold Qcdiv. ring.
  - field. intros E. apply Hsum. rewrite <- E at 3. ring.
Qed.

Lemma NoDup_flat_map {A B : Type} (f : A -> list B) (l : list A) :
  NoDup l ->
  (forall x, In x l -> NoDup (f x)) ->
  (forall x y b, In x l -> In y l -> In b (f x) -> In b (f y) -> x = y) ->
  NoDup (flat_map f l).
Proof.
  intros Hnd. induction Hnd as [| x l Hx Hnd IH]; intros Hf Hd.
  - constructor.
  - cbn [flat_map]. apply NoDup_app.
    + apply Hf. now left.
    + apply IH.
      * intros y Hy. apply Hf. now right.
      * intros y z b Hy Hz. apply Hd; now right.
    + intros b Hb Hin. apply in_flat_map in Hin.
      destruct Hin as [y [Hy Hb']].
      assert (E : x = y) by (apply (Hd x y b); auto using in_eq, in_cons).
      subst y. contradiction.
Qed.

Lemma NoDup_set_diff (s t : pyset) : NoDup s -> NoDup (set_diff s t).
Proof. intros H. unfold set_diff. now apply NoDup_filter. Qed.

(** X17: what the three loops hand to [joint_probability]: the three sets
    hold names of the family only, nobody is in both gene sets, the trait
    set agrees with the evidence, and, the names being distinct, no
    assignment is scored twice. *)
Theorem scored_assignments (people : people_t)
    (one_gene two_genes have_trait : pyset) :
  NoDup (keys people) ->
  In (one_gene, two_genes, have_trait) (scored set_iter people) ->
  NoDup (scored set_iter people)
  /\ (forall x, In x one_gene -> In x (keys people))
  /\ (forall x, In x two_genes -> In x (keys people) /\ ~ In x one_gene)
  /\ (forall x, In x have_trait -> In x (keys people))
  /\ ~ contradicts_evidence people have_trait.
Proof.
  intros Hnd Hin. split.
  - unfold scored. apply NoDup_flat_map.
    + now apply (powerset_no_repeat_list set_iter set_iter_perm).
    + intros h _.
      destruct (fails_evidence set_iter people (keys people) h);
        [constructor |].
      apply NoDup_flat_map.
      * now apply (powerset_no_repeat_list set_iter set_iter_perm).
      * intros o _. apply FinFun_free_map.
        -- apply (powerset_no_repeat_list set_iter set_iter_perm).
           now apply NoDup_set_diff.
        -- intros x y E. now inversion E.
      * intros o o' a _ _ Ha Ha'. apply in_map_iff in Ha, Ha'.
        destruct Ha as [t [E _]], Ha' as [t' [E' _]]. congruence.
    + intros h h' a _ _ Ha Ha'.
      destruct (fails_evidence set_iter people (keys people) h); [easy |].
      destruct (fails_evidence set_iter people (keys people) h'); [easy |].
      apply in_flat_map in Ha, Ha'.
      destruct Ha as [o [_ Ha]], Ha' as [o' [_ Ha']].
      apply in_map_iff in Ha, Ha'.
      destruct Ha as [t [E _]], Ha' as [t' [E' _]]. congruence.
  - apply (scored_In set_iter) in Hin.
    destruct Hin as [Hh [Hf [Ho Ht]]].
    apply (powerset_subseq set_iter) in Hh, Ho, Ht.
    split; [| split; [| split]].
    + intros x Hx. apply (set_iter_In set_iter set_iter_perm).
      now apply (subseq_incl _ one_gene).
    + intros x Hx. apply (subseq_incl _ _ x Ht) in Hx.
      apply (proj1 (set_iter_In set_iter set_iter_perm _ _)) in Hx.
      unfold set_diff in Hx. apply filter_In in Hx. destruct Hx as [Hk Hm].
      split; [exact Hk |].
      apply negb_true_iff in Hm. now apply mem_false in Hm.
    + intros x Hx. apply (set_iter_In set_iter set_iter_perm).
      now apply (subseq_incl _ have_trait).
    + intros Hc. apply (fails_evidence_iff set_iter set_iter_perm) in Hc.
      congruence.
Qed.

End MainFacts.

(** ** [load_data] *)

Lemma dict_get_set {V : Type} (d : dict V) (k k' : string) (v : V) :
  dict_get (dict_set d k v) k'
  = if String.eqb k' k then Some v else dict_get d k'.
Proof.
  induction d as [| [k0 v0] d IH]; [reflexivity |].
  cbn [dict_set]. destruct (String.eqb k k0) eqn:E.
  - apply String.eqb_eq in E. subst k0. cbn [dict_get].
    now destruct (String.eqb k' k).
  - cbn [dict_get]. rewrite IH. destruct (String.eqb k' k0) eqn:E0; [| reflexivity].
    apply String.eqb_eq in E0. subst k0.
    rewrite String.eqb_sym in E. now rewrite E.
Qed.

Lemma keys_dict_set {V : Type} (d : dict V) (k : string) (v : V) (x : string) :
  In x (keys (dict_set d k v)) <-> x = k \/ In x (keys d).
Proof.
  induction d as [| [k0 v0] d IH]; cbn [dict_set].
  - cbn. intuition.
  - destruct (String.eqb k k0) eqn:E.
    + apply String.eqb_eq in E. subst k0. cbn. intuition.
    + cbn [keys map fst In] in *. rewrite IH. intuition.
Qed.

Lemma NoDup_dict_set {V : Type} (d : dict V) (k : string) (v : V) :
  NoDup (keys d) -> NoDup (keys (dict_set d k v)).
Proof.
  induction d as [| [k0 v0] d IH]; intros H; cbn [dict_set].
  - cbn. constructor; [easy | constructor].
  - inversion H as [| ? ? Hk Hd]; subst.
    destruct (String.eqb k k0) eqn:E.
    + cbn. now constructor.
    + cbn [keys map fst]. constructor; [| now apply IH].
      intros Hin. apply keys_dict_set in Hin. destruct Hin as [E' | Hin].
      * subst k0. now rewrite String.eqb_refl in E.
      * contradiction.
Qed.

Lemma In_dict_set {V : Type} (d : dict V) (k k' : string) (v v' : V) :
  In (k', v') (dict_set d k v) -> (k' = k /\ v' = v) \/ In (k', v') d.
Proof.
  induction d as [| [k0 v0] d IH]; cbn [dict_set]; intros H.
  - destruct H as [E | []]. inversion E. now left.
  - destruct (String.eqb k k0) eqn:E.
    + apply String.eqb_eq in E. subst k0. destruct H as [E | H].
      * inversion E. now left.
      * right. now right.
    + destruct H as [E' | H]; [right; now left |].
      destruct (IH H) as [L | R]; [now left | right; now right].
Qed.

Lemma find_app {A : Type} (f : A -> bool) (l1 l2 : list A) :
  find f (l1 ++ l2)
  = match find f l1 with Some x => Some x | None => find f l2 end.
Proof.
  induction l1 as [| x l1 IH]; [reflexivity |].
  cbn [app find]. now destruct (f x).
Qed.

Lemma load_fold_get (rows : list row) (data : people_t) (n : string) :
  dict_get
    (fold_left (fun data r => dict_set data (row_name r) (person_of_row r))
       rows data) n
  = match last_row rows n with
    | Some r => Some (person_of_row r)
    | None => dict_get data n
    end.
Proof.
  revert data. induction rows as [| r rows IH]; intros data; [reflexivity |].
  cbn [fold_left]. rewrite IH. unfold last_row. cbn [rev].
  rewrite find_app. destruct (find _ (rev rows)); [reflexivity |].
  cbn [find]. rewrite dict_get_set. rewrite (String.eqb_sym n).
  now destruct (String.eqb (row_name r) n).
Qed.

Lemma load_fold_keys (rows : list row) (data : people_t) :
  NoDup (keys data) ->
  NoDup
    (keys
       (fold_left (fun data r => dict_set data (row_name r) (person_of_row r))
          rows data)).
Proof.
  revert data. induction rows as [| r rows IH]; intros data H; [exact H |].
  cbn [fold_left]. apply IH. now apply NoDup_dict_set.
Qed.

Lemma load_fold_In (rows : list row) (data : people_t) (n : string)
    (p : person) :
  In (n, p)
    (fold_left (fun data r => dict_set data (row_name r) (person_of_row r))
       rows data) ->
  (exists r, In r rows /\ row_name r = n /\ p = person_of_row r)
  \/ In (n, p) data.
Proof.
  revert data. induction rows as [| r rows IH]; intros data H; [now right |].
  cbn [fold_left] in H. destruct (IH _ H) as [[r' [Hr' E]] | Hin].
  - left. exists r'. split; [now right | exact E].
  - apply In_dict_set in Hin. destruct Hin as [[E1 E2] | Hin]; [| now right].
    left. exists r. split; [now left | now split].
Qed.

Lemma last_row_In (rows : list row) (n : string) (r : row) :
  last_row rows n = Some r -> In r rows /\ row_name r = n.
Proof.
  unfold last_row. intros H. apply find_some in H. destruct H as [Hin E].
  split; [now apply in_rev | now apply String.eqb_eq].
Qed.

Lemma last_row_None (rows : list row) (n : string) :
  last_row rows n = None -> forall r, In r rows -> row_name r <> n.
Proof.
  unfold last_row. intros H r Hr E. apply in_rev in Hr.
  pose proof (find_none _ _ H r Hr) as N. cbn beta in N.
  apply String.eqb_neq in N. contradiction.
Qed.

(** X18: a lookup in the loaded family finds the last row of the file
    with that name, converted; a name no row carries is not a key. *)
Theorem load_data_last_row_wins (rows : list row) (n : string) :
  dict_get (load_data rows) n = option_map person_of_row (last_row rows n)
  /\ (In n (keys (load_data rows)) <-> exists r, In r rows /\ row_name r = n).
Proof.
  assert (Hget : dict_get (load_data rows) n
                 = option_map person_of_row (last_row rows n)).
  { unfold load_data. rewrite load_fold_get.
    now destruct (last_row rows n). }
  split; [exact Hget |]. split.
  - intros Hin. apply names_have_entries in Hin. destruct Hin as [info Hi].
    rewrite Hget in Hi. destruct (last_row rows n) as [r |] eqn:E;
      [| discriminate Hi].
    exists r. now apply last_row_In.
  - intros [r [Hr E]].
    destruct (last_row rows n) as [r' |] eqn:El.
    + cbn [option_map] in Hget. apply dict_get_Some_In in Hget.
      unfold keys. apply in_map_iff. now exists (n, person_of_row r').
    + elim (last_row_None rows n El r Hr E).
Qed.

(** X19: the loaded family is a dictionary of well-formed rows: no name is
    a key twice, every entry is the conversion of a row with the key as its
    name and carries that name, and a stored parent is never the empty
    string. *)
Theorem load_data_well_formed (rows : list row) (n : string) (p : person) :
  In (n, p) (load_data rows) ->
  NoDup (keys (load_data rows))
  /\ name p = n
  /\ mother p <> Some ""%string
  /\ father p <> Some ""%string
  /\ exists r, In r rows /\ row_name r = n /\ p = person_of_row r.
Proof.
  intros Hin. split.
  - unfold load_data. apply load_fold_keys. constructor.
  - unfold load_data in Hin. apply load_fold_In in Hin.
    destruct Hin as [[r [Hr [En Ep]]] | []]. subst p.
    cbn [person_of_row name mother father]. repeat split.
    + exact En.
    + unfold or_none. destruct (String.eqb (row_mother r) "") eqn:E;
        [discriminate |].
      intros H. inversion H as [H']. rewrite H' in E. discriminate E.
    + unfold or_none. destruct (String.eqb (row_father r) "") eqn:E;
        [discriminate |].
      intros H. inversion H as [H']. rewrite H' in E. discriminate E.
    + exists r. now repeat split.
Qed.

Lemma or_none_None (s : string) : or_none s = None <-> s = ""%string.
Proof.
  unfold or_none. destruct (String.eqb s "") eqn:E.
  - apply String.eqb_eq in E. now split.
  - apply String.eqb_neq in E. split; [discriminate | contradiction].
Qed.

(** X20: when every row of the file has both parent cells blank or
    neither, every person of the loaded family has both parents or none,
    and [joint_probability] of the loaded family is the product of the
    specification. *)
Theorem load_data_paired (rows : list row)
    (one_gene two_genes have_trait : pyset) :
  Forall row_paired rows ->
  Forall (fun entry => parents_paired (snd entry)) (load_data rows)
  /\ joint_probability (load_data rows) one_gene two_genes have_trait
     = spec_joint (load_data rows) one_gene two_genes have_trait.
Proof.
  intros H.
  assert (Hp : Forall (fun entry => parents_paired (snd entry))
                 (load_data rows)).
  { apply Forall_forall. intros [n p] Hin. unfold load_data in Hin.
    apply load_fold_In in Hin. destruct Hin as [[r [Hr [_ Ep]]] | []].
    subst p. rewrite Forall_forall in H. specialize (H r Hr).
    unfold parents_paired, row_paired in *.
    cbn [snd person_of_row mother father]. now rewrite !or_none_None. }
  split; [exact Hp |].
  unfold joint_probability. rewrite joint_fold_product by exact Hp. ring.
Qed.

(** ** The iteration order of the sets does not matter *)

Lemma filter_subseq {A : Type} (f : A -> bool) (l : list A) :
  subseq (filter f l) l.
Proof.
  induction l as [| x l IH]; [constructor |].
  cbn [filter]. destruct (f x); now constructor.
Qed.

Lemma canon_members (s t : pyset) :
  (forall x, In x t -> In x s) -> same_members (canon s t) t.
Proof.
  intros H x. unfold canon. destruct (mem x t) eqn:E.
  - apply mem_In. apply filter_In. split; [| exact E].
    apply H. now apply mem_In.
  - apply mem_false. intros Hin. apply filter_In in Hin.
    destruct Hin as [_ Hm]. congruence.
Qed.

Lemma canon_of_subseq (s u : pyset) : NoDup s -> subseq u s -> canon s u = u.
Proof.
  intros Hnd Hu. apply (subseq_NoDup_members s); try assumption.
  - apply filter_subseq.
  - intros x. rewrite <- !mem_In.
    now rewrite (canon_members s u (fun y => subseq_incl s u y Hu) x).
Qed.

Lemma same_members_sym (s t : pyset) : same_members s t -> same_members t s.
Proof. intros H x. now rewrite (H x). Qed.

Lemma NoDup_map_inj_in {A B : Type} (f : A -> B) (l : list A) :
  NoDup l ->
  (forall x y, In x l -> In y l -> f x = f y -> x = y) ->
  NoDup (map f l).
Proof.
  intros H. induction H as [| x l Hx _ IH]; intros Hinj; cbn [map];
    constructor.
  - intros Hin. apply in_map_iff in Hin. destruct Hin as [y [E Hy]].
    assert (y = x) by (apply Hinj; [now right | now left | exact E]).
    now subst.
  - apply IH. intros y z Hy Hz. apply Hinj; now right.
Qed.

Lemma total_app (l1 l2 : list num) : total (l1 ++ l2) = total l1 + total l2.
Proof.
  induction l1 as [| x l1 IH]; cbn [app].
  - cbn. ring.
  - rewrite !total_cons, IH. ring.
Qed.

Lemma total_perm (l1 l2 : list num) : Permutation l1 l2 -> total l1 = total l2.
Proof.
  induction 1 as [| x l l' _ IH | x y l | l l' l'' _ IH1 _ IH2].
  - reflexivity.
  - rewrite !total_cons. now rewrite IH.
  - rewrite !total_cons. ring.
  - congruence.
Qed.

Lemma total_map_flat_map {A B : Type} (F : B -> num) (G : A -> list B)
    (l : list A) :
  total (map F (flat_map G l)) = total (map (fun x => total (map F (G x))) l).
Proof.
  induction l as [| x l IH]; [reflexivity |].
  cbn [flat_map map]. rewrite map_app, total_app, total_cons. now rewrite IH.
Qed.

Lemma total_map_ext_in {A : Type} (F G : A -> num) (l : list A) :
  (forall x, In x l -> F x = G x) -> total (map F l) = total (map G l).
Proof. intros H. f_equal. now apply map_ext_in. Qed.

Lemma total_filter {A : Type} (f : A -> bool) (w : A -> num) (l : list A) :
  total (map w (filter f l))
  = total (map (fun x => if f x then w x else 0) l).
Proof.
  induction l as [| x l IH]; [reflexivity |].
  cbn [filter map]. destruct (f x).
  - cbn [map]. rewrite !total_cons. now rewrite IH.
  - rewrite total_cons, IH. ring.
Qed.

Section TwoOrders.

Variables set_iter set_iter' : pyset -> list string.
Hypothesis set_iter_perm : forall s, Permutation (set_iter s) s.
Hypothesis set_iter_perm' : forall s, Permutation (set_iter' s) s.

Lemma powerset_canon_In (si : pyset -> list string)
    (Hsi : forall s, Permutation (si s) s) (s u : pyset) :
  NoDup s ->
  (In u (map (canon s) (powerset si s)) <-> subseq u s).
Proof.
  intros Hnd. split.
  - intros H. apply in_map_iff in H. destruct H as [t [E _]]. subst u.
    apply filter_subseq.
  - intros Hu. apply in_map_iff.
    exists (filter (fun x => mem x u) (si s)). split.
    + transitivity (canon s u); [| now apply canon_of_subseq].
      unfold canon. apply filter_ext_in. intros x Hx.
      destruct (mem x u) eqn:E.
      * apply mem_In. apply filter_In. split; [| exact E].
        now apply (Permutation_in x (Permutation_sym (Hsi s))).
      * apply mem_false. intros H. apply filter_In in H.
        destruct H as [_ H]. congruence.
    + apply (powerset_filter si).
Qed.

Lemma powerset_canon_NoDup (si : pyset -> list string)
    (Hsi : forall s, Permutation (si s) s) (s : pyset) :
  NoDup s -> NoDup (map (canon s) (powerset si s)).
Proof.
  intros Hnd. apply NoDup_map_inj_in.
  - now apply (powerset_no_repeat_list si Hsi).
  - intros t t' Ht Ht' E.
    apply (powerset_subseq si) in Ht, Ht'.
    assert (Hnd' : NoDup (si s))
      by (apply (Permutation_NoDup (Permutation_sym (Hsi s)) Hnd)).
    apply (subseq_NoDup_members (si s)); try assumption.
    assert (Hin : forall u, subseq u (si s) -> forall x, In x u -> In x s).
    { intros u Hu x Hx. apply (Permutation_in x (Hsi s)).
      now apply (subseq_incl (si s) u). }
    pose proof (canon_members s t (Hin t Ht)) as M.
    pose proof (canon_members s t' (Hin t' Ht')) as M'.
    rewrite E in M. intros x. rewrite <- !mem_In.
    now rewrite <- (M x), (M' x).
Qed.

(** A sum over the subsets of a set is the same in both orders. *)
Lemma total_powerset (s : pyset) (F : pyset -> num) :
  NoDup s ->
  (forall t t', same_members t t' -> F t = F t') ->
  total (map F (powerset set_iter s)) = total (map F (powerset set_iter' s)).
Proof.
  intros Hnd HF.
  assert (Hc : forall si, (forall s, Permutation (si s) s) ->
            total (map F (powerset si s))
            = total (map F (map (canon s) (powerset si s)))).
  { intros si Hsi. rewrite map_map. apply total_map_ext_in. intros t Ht.
    apply HF. apply same_members_sym, canon_members.
    intros x Hx. apply (powerset_subseq si) in Ht.
    apply (Permutation_in x (Hsi s)). now apply (subseq_incl (si s) t). }
  rewrite (Hc set_iter set_iter_perm), (Hc set_iter' set_iter_perm').
  apply total_perm. apply Permutation_map. apply NoDup_Permutation.
  - now apply powerset_canon_NoDup.
  - now apply powerset_canon_NoDup.
  - intros u. rewrite (powerset_canon_In set_iter set_iter_perm s u Hnd).
    now rewrite (powerset_canon_In set_iter' set_iter_perm' s u Hnd).
Qed.

Lemma same_members_refl (s : pyset) : same_members s s.
Proof. now intros x. Qed.

Lemma set_diff_members (s o o' : pyset) :
  same_members o o' -> set_diff s o = set_diff s o'.
Proof.
  intros H. unfold set_diff. apply filter_ext. intros x. now rewrite (H x).
Qed.

Lemma fails_evidence_members (si : pyset -> list string) (people : people_t)
    (names h h' : pyset) :
  same_members h h' ->
  fails_evidence si people names h = fails_evidence si people names h'.
Proof.
  intros H. unfold fails_evidence. apply existsb_ext_all. intros who.
  now rewrite (H who).
Qed.

Lemma fails_evidence_orders (people : people_t) (h : pyset) :
  fails_evidence set_iter people (keys people) h
  = fails_evidence set_iter' people (keys people) h.
Proof.
  pose proof (fails_evidence_iff set_iter set_iter_perm people h) as H.
  pose proof (fails_evidence_iff set_iter' set_iter_perm' people h) as H'.
  destruct (fails_evidence set_iter people (keys people) h),
    (fails_evidence set_iter' people (keys people) h); try reflexivity.
  - symmetry. apply H', H. reflexivity.
  - apply H, H'. reflexivity.
Qed.

(** A sum over the scored assignments is the same in both orders. *)
Lemma total_scored (people : people_t) (F : pyset * pyset * pyset -> num) :
  NoDup (keys people) -> by_members F ->
  total (map F (scored set_iter people))
  = total (map F (scored set_iter' people)).
Proof.
  intros Hnd HF. unfold scored. rewrite !total_map_flat_map.
  assert (Hinner : forall si h o o',
            same_members o o' ->
            total (map F (map (fun t => (o, t, h))
                            (powerset si (set_diff (keys people) o))))
            = total (map F (map (fun t => (o', t, h))
                              (powerset si (set_diff (keys people) o'))))).
  { intros si h o o' Ho. rewrite (set_diff_members _ o o' Ho), !map_map.
    apply total_map_ext_in. intros t _.
    apply HF; [exact Ho | apply same_members_refl | apply same_members_refl]. }
  assert (Hmid : forall si h h',
            same_members h h' ->
            total (map F
                     (flat_map
                        (fun o => map (fun t => (o, t, h))
                                    (powerset si (set_diff (keys people) o)))
                        (powerset si (keys people))))
            = total (map F
                       (flat_map
                          (fun o => map (fun t => (o, t, h'))
                                      (powerset si (set_diff (keys people) o)))
                          (powerset si (keys people))))).
  { intros si h h' Hh. rewrite !total_map_flat_map.
    apply total_map_ext_in. intros o _. rewrite !map_map.
    apply total_map_ext_in. intros t _.
    apply HF; [apply same_members_refl | apply same_members_refl | exact Hh]. }
  transitivity
    (total
       (map
          (fun h =>
             total
               (map F
                  (if fails_evidence set_iter' people (keys people) h
                   then []
                   else
                     flat_map
                       (fun o =>
                          map (fun t => (o, t, h))
                            (powerset set_iter'
                               (set_diff (keys people) o)))
                       (powerset set_iter' (keys people)))))
          (powerset set_iter (keys people)))).
  - apply total_map_ext_in. intros h _. rewrite fails_evidence_orders.
    destruct (fails_evidence set_iter' people (keys people) h);
      [reflexivity |].
    rewrite !total_map_flat_map.
    transitivity
      (total
         (map
            (fun o =>
               total
                 (map F
                    (map (fun t => (o, t, h))
                       (powerset set_iter' (set_diff (keys people) o)))))
            (powerset set_iter (keys people)))).
    + apply total_map_ext_in. intros o _. rewrite !map_map.
      apply total_powerset; [now apply NoDup_set_diff |].
      intros t t' Ht.
      apply HF; [apply same_members_refl | exact Ht | apply same_members_refl].
    + apply total_powerset; [exact Hnd |].
      intros o o' Ho. now apply Hinner.
  - apply total_powerset; [exact Hnd |].
    intros h h' Hh. rewrite (fails_evidence_members _ _ _ h h' Hh).
    destruct (fails_evidence set_iter' people (keys people) h');
      [reflexivity |].
    now apply Hmid.
Qed.

Lemma gene_mass_scored (si : pyset -> list string) (people : people_t)
    (who : string) (g : nat) :
  gene_mass who g (map (score people) (scored si people))
  = total
      (map
         (fun a =>
            if Nat.eqb
                 (person_gene_count (fst (fst a)) (snd (fst a)) who) g
            then joint_probability people (fst (fst a)) (snd (fst a)) (snd a)
            else 0)
         (scored si people)).
Proof.
  unfold gene_mass. rewrite total_filter, map_map.
  apply total_map_ext_in. now intros [[o t] h] _.
Qed.

Lemma trait_mass_scored (si : pyset -> list string) (people : people_t)
    (who : string) (b : bool) :
  trait_mass who b (map (score people) (scored si people))
  = total
      (map
         (fun a =>
            if Bool.eqb (mem who (snd a)) b
            then joint_probability people (fst (fst a)) (snd (fst a)) (snd a)
            else 0)
         (scored si people)).
Proof.
  unfold trait_mass. rewrite total_filter, map_map.
  apply total_map_ext_in. now intros [[o t] h] _.
Qed.

Lemma gene_mass_orders (people : people_t) (who : string) (g : nat) :
  NoDup (keys people) ->
  gene_mass who g (map (score people) (scored set_iter people))
  = gene_mass who g (map (score people) (scored set_iter' people)).
Proof.
  intros Hnd. rewrite !gene_mass_scored. apply total_scored; [exact Hnd |].
  intros o t h o' t' h' Ho Ht Hh. cbn [fst snd].
  rewrite (person_gene_count_members _ _ _ _ who Ho Ht).
  now rewrite (joint_probability_members people _ _ _ _ _ _ Ho Ht Hh).
Qed.

Lemma trait_mass_orders (people : people_t) (who : string) (b : bool) :
  NoDup (keys people) ->
  trait_mass who b (map (score people) (scored set_iter people))
  = trait_mass who b (map (score people) (scored set_iter' people)).
Proof.
  intros Hnd. rewrite !trait_mass_scored. apply total_scored; [exact Hnd |].
  intros o t h o' t' h' Ho Ht Hh. cbn [fst snd]. rewrite (Hh who).
  now rewrite (joint_probability_members people _ _ _ _ _ _ Ho Ht Hh).
Qed.

Lemma distribution_ext (d d' : distribution) :
  (forall g, (g <= 2)%nat -> gene_at (gene d) g = gene_at (gene d') g) ->
  (forall t, trait_at (trait_d d) t = trait_at (trait_d d') t) ->
  d = d'.
Proof.
  destruct d as [[g2 g1 g0] [tt tf]], d' as [[g2' g1' g0'] [tt' tf']].
  intros Hg Ht.
  pose proof (Hg 2%nat (Nat.le_refl 2)) as E2.
  pose proof (Hg 1%nat (Nat.le_succ_diag_r 1)) as E1.
  pose proof (Hg 0%nat (Nat.le_0_l 2)) as E0.
  pose proof (Ht true) as Et. pose proof (Ht false) as Ef.
  cbn in E2, E1, E0, Et, Ef. congruence.
Qed.

(** X21: the order in which Python happens to iterate its sets has no
    influence on the result: for a family with distinct names, [main]
    returns the same in any two iteration orders. *)
Theorem main_order_independent (people : people_t) :
  NoDup (keys people) ->
  main set_iter people = main set_iter' people.
Proof.
  intros Hnd. unfold main. f_equal.
  rewrite (accumulate_entries set_iter), (accumulate_entries set_iter').
  apply map_ext. intros [who info]. cbn [fst]. f_equal.
  apply distribution_ext.
  - intros g Hg. rewrite !person_run_gene by exact Hg.
    now rewrite gene_mass_orders.
  - intros t. rewrite !person_run_trait. now rewrite trait_mass_orders.
Qed.

End TwoOrders.

(** ** The further properties on the family of Harry *)

Lemma reverse_order_perm (s : pyset) : Permutation (reverse_order s) s.
Proof. apply Permutation_sym, Permutation_rev. Qed.

Lemma family0_names_distinct : NoDup (keys family0).
Proof.
  cbn. repeat constructor; cbn; intuition discriminate.
Qed.

Lemma powerset_lists_sublists_witness :
  (forall s, Permutation (reverse_order s) s)
  /\ In ["Lily"%string; "Harry"%string]
        (powerset reverse_order (keys family0))
  /\ In "Harry"%string ["Lily"%string; "Harry"%string]
  /\ subseq ["Lily"%string; "Harry"%string] (reverse_order (keys family0))
  /\ In "Harry"%string (keys family0).
Proof.
  split; [exact reverse_order_perm |].
  assert (H1 : In ["Lily"%string; "Harry"%string]
                 (powerset reverse_order (keys family0)))
    by (vm_compute; do 5 right; left; reflexivity).
  assert (H2 : In "Harry"%string ["Lily"%string; "Harry"%string])
    by (right; left; reflexivity).
  split; [exact H1 |]. split; [exact H2 |].
  exact (powerset_lists_sublists reverse_order reverse_order_perm
           (keys family0) ["Lily"%string; "Harry"%string] "Harry"%string
           H1 H2).
Defined.

Lemma powerset_complete_witness :
  (forall s, Permutation (reverse_order s) s)
  /\ exists t,
       In t (powerset reverse_order (keys family0))
       /\ forall x,
            mem x t = mem x (keys family0) && String.eqb x "James".
Proof.
  split; [exact reverse_order_perm |].
  exact (powerset_complete reverse_order reverse_order_perm (keys family0)
           (fun x => String.eqb x "James")).
Defined.

Lemma powerset_length_witness :
  (forall s, Permutation (reverse_order s) s)
  /\ List.length (powerset reverse_order (keys family0)) = 8%nat.
Proof.
  split; [exact reverse_order_perm |].
  exact (powerset_length reverse_order reverse_order_perm (keys family0)).
Defined.

Lemma powerset_no_repeat_witness :
  (forall s, Permutation (insertion_order s) s)
  /\ NoDup (keys family0)
  /\ In ["Harry"%string; "Lily"%string]
        (powerset insertion_order (keys family0))
  /\ same_members ["Harry"%string; "Lily"%string]
       ["Harry"%string; "Lily"%string]
  /\ NoDup (powerset insertion_order (keys family0)).
Proof.
  split; [exact insertion_order_perm |].
  split; [exact family0_names_distinct |].
  assert (H1 : In ["Harry"%string; "Lily"%string]
                 (powerset insertion_order (keys family0)))
    by (vm_compute; do 5 right; left; reflexivity).
  assert (H2 : same_members ["Harry"%string; "Lily"%string]
                 ["Harry"%string; "Lily"%string])
    by (intros x; reflexivity).
  split; [exact H1 |]. split; [exact H2 |].
  exact (proj1
           (powerset_no_repeat insertion_order insertion_order_perm
              (keys family0) _ _ family0_names_distinct H1 H1 H2)).
Defined.

Lemma powerset_by_size_witness :
  (1 <= 4)%nat
  /\ nth_error (powerset insertion_order (keys family0)) 1
     = Some ["Harry"%string]
  /\ nth_error (powerset insertion_order (keys family0)) 4
     = Some ["Harry"%string; "James"%string]
  /\ nth_error (powerset insertion_order (keys family0)) 0 = Some []
  /\ (List.length ["Harry"%string]
      <= List.length ["Harry"%string; "James"%string])%nat.
Proof.
  assert (H0 : (1 <= 4)%nat) by lia.
  split; [exact H0 |]. split; [reflexivity |]. split; [reflexivity |].
  exact (powerset_by_size insertion_order (keys family0) 1 4
           ["Harry"%string] ["Harry"%string; "James"%string]
           H0 eq_refl eq_refl).
Defined.

Lemma joint_probability_row_order_witness :
  Permutation family0 (rev family0)
  /\ joint_probability family0 ["Harry"%string] ["James"%string]
       ["James"%string]
     = joint_probability (rev family0) ["Harry"%string] ["James"%string]
         ["James"%string].
Proof.
  assert (H : Permutation family0 (rev family0)) by apply Permutation_rev.
  split; [exact H |].
  exact (joint_probability_row_order family0 (rev family0) _ _ _ H).
Defined.

Lemma assignment_by_members_witness :
  same_members ["Harry"%string; "James"%string]
    ["James"%string; "Harry"%string]
  /\ same_members [] []
  /\ same_members ["Lily"%string] ["Lily"%string; "Lily"%string]
  /\ joint_probability family0 ["Harry"%string; "James"%string] []
       ["Lily"%string]
     = joint_probability family0 ["James"%string; "Harry"%string] []
         ["Lily"%string; "Lily"%string].
Proof.
  assert (H1 : same_members ["Harry"%string; "James"%string]
                 ["James"%string; "Harry"%string]).
  { intros x. unfold mem. cbn [existsb]. rewrite !orb_false_r.
    apply orb_comm. }
  assert (H2 : same_members [] []) by (intros x; reflexivity).
  assert (H3 : same_members ["Lily"%string]
                 ["Lily"%string; "Lily"%string]).
  { intros x. unfold mem. cbn [existsb].
    now destruct (String.eqb x "Lily"). }
  split; [exact H1 |]. split; [exact H2 |]. split; [exact H3 |].
  exact (proj1
           (assignment_by_members family0 [] 0 _ _ _ _ _ _ H1 H2 H3)).
Defined.

Lemma updates_in_any_order_witness :
  Permutation calls0 (rev calls0)
  /\ run_updates calls0 (initial family0)
     = run_updates (rev calls0) (initial family0).
Proof.
  assert (H : Permutation calls0 (rev calls0)) by apply Permutation_rev.
  split; [exact H |].
  exact (updates_in_any_order calls0 (rev calls0) (initial family0) H).
Defined.

Lemma updates_accumulate_marginals_witness :
  dict_get family0 "Harry"%string = Some harry
  /\ exists d,
       dict_get (run_updates calls0 (initial family0)) "Harry"%string
       = Some d
       /\ (forall g, (g <= 2)%nat ->
             gene_at (gene d) g = gene_mass "Harry"%string g calls0)
       /\ (forall t,
             trait_at (trait_d d) t = trait_mass "Harry"%string t calls0).
Proof.
  split; [reflexivity |].
  exact (updates_accumulate_marginals family0 calls0 "Harry"%string harry
           eq_refl).
Defined.

Lemma normalize_idempotent_witness :
  normalize [("Harry"%string, sample_distribution)]
  = Ok [("Harry"%string, normalized sample_distribution)]
  /\ normalize [("Harry"%string, normalized sample_distribution)]
     = Ok [("Harry"%string, normalized sample_distribution)].
Proof.
  assert (H : normalize [("Harry"%string, sample_distribution)]
              = Ok [("Harry"%string, normalized sample_distribution)]).
  { apply (normalize_ok [("Harry"%string, sample_distribution)]).
    constructor; [| constructor].
    split; apply Qc_pos_nonzero; reflexivity. }
  split; [exact H |].
  exact (normalize_idempotent _ _ H).
Defined.

Lemma normalize_scale_invariant_witness :
  lit 2 <> 0
  /\ normalize (scale_all (lit 2) [("Harry"%string, sample_distribution)])
     = normalize [("Harry"%string, sample_distribution)].
Proof.
  assert (H : lit 2 <> 0) by (apply Qc_pos_nonzero; reflexivity).
  split; [exact H |].
  exact (normalize_scale_invariant (lit 2)
           [("Harry"%string, sample_distribution)] H).
Defined.

Lemma main_returns_distributions_witness :
  (forall s, Permutation (reverse_order s) s)
  /\ exists probabilities,
       main reverse_order family0 = Ok probabilities
       /\ keys probabilities = keys family0
       /\ Forall
            (fun entry =>
               gene_sum (gene (snd entry)) = 1
               /\ trait_sum (trait_d (snd entry)) = 1
               /\ buckets_within 0 1 (snd entry))
            probabilities.
Proof.
  split; [exact reverse_order_perm |].
  exact (main_returns_distributions reverse_order reverse_order_perm family0).
Defined.


Lemma evidence_false_is_certain_witness :
  (forall s, Permutation (insertion_order s) s)
  /\ dict_get family0 "Lily"%string = Some lily
  /\ trait lily = Some false
  /\ exists probabilities d,
       main insertion_order family0 = Ok probabilities
       /\ dict_get probabilities "Lily"%string = Some d
       /\ trait_true (trait_d d) = 0
       /\ trait_false (trait_d d) = 1.
Proof.
  split; [exact insertion_order_perm |].
  split; [reflexivity |]. split; [reflexivity |].
  exact (evidence_false_is_certain insertion_order insertion_order_perm
           family0 "Lily"%string lily eq_refl eq_refl).
Defined.

Lemma scored_assignments_witness :
  (forall s, Permutation (insertion_order s) s)
  /\ NoDup (keys family0)
  /\ In (["Harry"%string], ["James"%string], ["James"%string])
        (scored insertion_order family0)
  /\ NoDup (scored insertion_order family0)
  /\ (forall x, In x ["James"%string] ->
        In x (keys family0) /\ ~ In x ["Harry"%string]).
Proof.
  split; [exact insertion_order_perm |].
  split; [exact family0_names_distinct |].
  assert (Hin : In (["Harry"%string], ["James"%string], ["James"%string])
                  (scored insertion_order family0)).
  { apply (scored_In insertion_order). repeat split.
    - vm_compute. do 2 right. left. reflexivity.
    - vm_compute. do 1 right. left. reflexivity.
    - vm_compute. do 1 right. left. reflexivity. }
  split; [exact Hin |].
  pose proof (scored_assignments insertion_order insertion_order_perm family0
                _ _ _ family0_names_distinct Hin) as H.
  split; [exact (proj1 H) | exact (proj1 (proj2 (proj2 H)))].
Defined.

Lemma load_data_well_formed_witness :
  In ("James"%string, mkPerson "James" None None (Some false))
     (load_data rows0)
  /\ NoDup (keys (load_data rows0))
  /\ name (mkPerson "James" None None (Some false)) = "James"%string.
Proof.
  assert (Hin : In ("James"%string, mkPerson "James" None None (Some false))
                  (load_data rows0))
    by (right; left; reflexivity).
  split; [exact Hin |].
  pose proof (load_data_well_formed rows0 _ _ Hin) as H.
  split; [exact (proj1 H) | exact (proj1 (proj2 H))].
Defined.

Lemma load_data_paired_witness :
  Forall row_paired rows0
  /\ Forall (fun entry => parents_paired (snd entry)) (load_data rows0).
Proof.
  assert (H : Forall row_paired rows0).
  { repeat constructor; cbn; intros E; (reflexivity || discriminate E). }
  split; [exact H |].
  exact (proj1 (load_data_paired rows0 [] [] [] H)).
Defined.

Lemma main_order_independent_witness :
  (forall s, Permutation (insertion_order s) s)
  /\ (forall s, Permutation (reverse_order s) s)
  /\ NoDup (keys family0)
  /\ main insertion_order family0 = main reverse_order family0.
Proof.
  split; [exact insertion_order_perm |].
  split; [exact reverse_order_perm |].
  split; [exact family0_names_distinct |].
  exact (main_order_independent insertion_order reverse_order
           insertion_order_perm reverse_order_perm family0
           family0_names_distinct).
Defined.

(** ** The rounds of [joint_probability] *)



(** ** The evidence filter of [main] *)

Section EvidenceFilter.

Variable set_iter : pyset -> list string.
Hypothesis set_iter_perm : forall s, Permutation (set_iter s) s.

(** C3: the loops of [main] call [joint_probability] and [update] for the
    assignments of [scored], in that order, and for nothing else; and a
    candidate trait subset is among them with no gene partition at all
    exactly when somebody with known trait evidence has a membership in it
    that contradicts the observed value, while every other candidate is
    among them with every gene partition. *)
Theorem main_filters_evidence (people : people_t) (have_trait : pyset) :
  In have_trait (powerset set_iter (keys people)) ->
  accumulate set_iter people
  = run_updates (map (score people) (scored set_iter people))
      (initial people)
  /\ main set_iter people
     = normalize
         (run_updates (map (score people) (scored set_iter people))
            (initial people))
  /\ (fails_evidence set_iter people (keys people) have_trait = true
      <-> contradicts_evidence people have_trait)
  /\ ((forall one_gene two_genes,
         ~ In (one_gene, two_genes, have_trait) (scored set_iter people))
      <-> contradicts_evidence people have_trait)
  /\ (~ contradicts_evidence people have_trait ->
      forall one_gene two_genes,
        In one_gene (powerset set_iter (keys people)) ->
        In two_genes (powerset set_iter (set_diff (keys people) one_gene)) ->
        In (one_gene, two_genes, have_trait) (scored set_iter people)).
Proof.
  intros Hin.
  split; [apply accumulate_run |].
  split; [unfold main; now rewrite accumulate_run |].
  exact (evidence_filter set_iter set_iter_perm people have_trait Hin).
Qed.

End EvidenceFilter.

Lemma main_filters_evidence_witness :
  (forall s, Permutation (insertion_order s) s)
  /\ In ["James"%string] (powerset insertion_order (keys family0))
  /\ accumulate insertion_order family0
     = run_updates (map (score family0) (scored insertion_order family0))
         (initial family0)
  /\ (fails_evidence insertion_order family0 (keys family0) ["James"%string]
      = true
      <-> contradicts_evidence family0 ["James"%string]).
Proof.
  split; [exact insertion_order_perm |].
  assert (Hin : In ["James"%string] (powerset insertion_order (keys family0)))
    by (vm_compute; right; right; left; reflexivity).
  split; [exact Hin |].
  pose proof (main_filters_evidence insertion_order insertion_order_perm
                family0 ["James"%string] Hin) as H.
  split; [exact (proj1 H) | exact (proj1 (proj2 (proj2 H)))].
Defined.

(** ** Where rounding shows *)

Lemma binary64_accumulate_run (set_iter : pyset -> list string)
    (people : people_t) :
  Binary64.accumulate set_iter people
  = Binary64.run_updates
      (map (Binary64.score people) (scored set_iter people))
      (Binary64.initial people).
Proof.
  unfold Binary64.accumulate, Binary64.run_updates, scored.
  rewrite fold_left_map, fold_left_flat_map.
  apply fold_left_ext. intros probabilities h.
  destruct (fails_evidence set_iter people (keys people) h); [reflexivity |].
  rewrite fold_left_flat_map. apply fold_left_ext. intros probabilities' o.
  rewrite fold_left_map. reflexivity.
Qed.

Lemma binary64_joint_founder (who : string) (info : person)
    (one_gene two_genes have_trait : pyset) :
  mother info = None ->
  Binary64.joint_probability [(who, info)] one_gene two_genes have_trait
  = PrimFloat.mul
      (PrimFloat.mul PrimFloat.one
         (Binary64.PROBS_gene (person_gene_count one_gene two_genes who)))
      (Binary64.PROBS_trait (person_gene_count one_gene two_genes who)
         (mem who have_trait)).
Proof.
  intros Hm. unfold Binary64.joint_probability. cbn [fold_left].
  unfold Binary64.joint_step, Binary64.gene_factor. cbn [fst snd].
  now rewrite Hm.
Qed.

Section Rounding.

Variable set_iter : pyset -> list string.
Hypothesis set_iter_perm : forall s, Permutation (set_iter s) s.

(** What [main] returns for a lone founder without evidence, in binary64:
    the priors of no copy and of two copies, and for one copy a number
    within [rounding_bound] of the prior. *)
Lemma binary64_single_founder (who : string) (info : person) :
  mother info = None -> trait info = None ->
  exists d,
    Binary64.main set_iter [(who, info)] = Ok [(who, d)]
    /\ Binary64.gene2 (Binary64.gene d) = Binary64.PROBS_gene 2
    /\ Binary64.gene0 (Binary64.gene d) = Binary64.PROBS_gene 0
    /\ Binary64.within Binary64.rounding_bound
         (Binary64.gene1 (Binary64.gene d)) (Binary64.PROBS_gene 1).
Proof.
  intros Hm Ht. eexists. split.
  - unfold Binary64.main. rewrite binary64_accumulate_run.
    rewrite (scored_single set_iter set_iter_perm who info Ht).
    cbn [map Binary64.score].
    rewrite !(binary64_joint_founder who info _ _ _ Hm).
    cbn [Binary64.run_updates fold_left Binary64.initial map
         Binary64.update fst snd].
    unfold Binary64.update_person. cbn [fst snd].
    unfold person_gene_count. rewrite !mem_single. cbn [mem existsb].
    lazy. reflexivity.
  - lazy. repeat split.
Qed.

(** C7, as the code has it: for a family of one founder without trait
    evidence the gene-count distribution [main] returns is the table of
    priors exactly when the arithmetic is exact; in binary64 it is the
    prior for no copy and for two copies, and for one copy it is within
    [rounding_bound] of the prior. *)
Theorem single_founder_prior_rounded (who : string) (info : person) :
  mother info = None -> father info = None -> trait info = None ->
  (exists d,
     main set_iter [(who, info)] = Ok [(who, d)]
     /\ gene d = mkGene (PROBS_gene 2) (PROBS_gene 1) (PROBS_gene 0))
  /\ (exists d,
        Binary64.main set_iter [(who, info)] = Ok [(who, d)]
        /\ Binary64.gene2 (Binary64.gene d) = Binary64.PROBS_gene 2
        /\ Binary64.gene0 (Binary64.gene d) = Binary64.PROBS_gene 0
        /\ Binary64.within Binary64.rounding_bound
             (Binary64.gene1 (Binary64.gene d)) (Binary64.PROBS_gene 1)).
Proof.
  intros Hm Hf Ht. split.
  - destruct (single_founder_prior set_iter set_iter_perm who info Hm Hf Ht)
      as [d [Hmain [Hgene _]]].
    exists d. now split.
  - now apply binary64_single_founder.
Qed.

End Rounding.

Lemma single_founder_prior_rounded_witness :
  (forall s, Permutation (insertion_order s) s)
  /\ mother arthur = None /\ father arthur = None /\ trait arthur = None
  /\ exists d,
       Binary64.main insertion_order [("Arthur"%string, arthur)]
       = Ok [("Arthur"%string, d)]
       /\ Binary64.gene2 (Binary64.gene d) = Binary64.PROBS_gene 2
       /\ Binary64.gene0 (Binary64.gene d) = Binary64.PROBS_gene 0
       /\ Binary64.within Binary64.rounding_bound
            (Binary64.gene1 (Binary64.gene d)) (Binary64.PROBS_gene 1).
Proof.
  split; [exact insertion_order_perm |].
  split; [reflexivity |]. split; [reflexivity |]. split; [reflexivity |].
  exact (proj2
           (single_founder_prior_rounded insertion_order insertion_order_perm
              "Arthur"%string arthur eq_refl eq_refl eq_refl)).
Defined.

(** Two binary64 numbers that compare unequal, the second not a NaN, are
    different. *)
Lemma binary64_differ (x y : PrimFloat.float) :
  PrimFloat.eqb x y = false -> PrimFloat.eqb y y = true -> x <> y.
Proof. intros H Hy E. subst y. congruence. Qed.

(** C7 with "exactly" fails in binary64: for the lone founder Arthur the
    probability [main] returns for one copy is not the prior 0.03. *)
Lemma single_founder_not_exact :
  exists d,
    Binary64.main insertion_order [("Arthur"%string, arthur)]
    = Ok [("Arthur"%string, d)]
    /\ Binary64.gene1 (Binary64.gene d) <> Binary64.PROBS_gene 1.
Proof.
  eexists. split.
  - vm_compute. reflexivity.
  - apply binary64_differ; vm_compute; reflexivity.
Qed.

(** C10 with equal sums fails in binary64: when [main] has made its six
    [update] calls for the lone founder Arthur, his gene buckets add up to
    another number than his trait buckets. *)
Lemma sums_differ_in_binary64 :
  exists d,
    Binary64.accumulate insertion_order [("Arthur"%string, arthur)]
    = Binary64.run_updates
        (map (Binary64.score [("Arthur"%string, arthur)])
           (scored insertion_order [("Arthur"%string, arthur)]))
        (Binary64.initial [("Arthur"%string, arthur)])
    /\ Binary64.accumulate insertion_order [("Arthur"%string, arthur)]
       = [("Arthur"%string, d)]
    /\ Binary64.gene_sum (Binary64.gene d)
       <> Binary64.trait_sum (Binary64.trait_d d).
Proof.
  eexists. split; [apply binary64_accumulate_run |]. split.
  - vm_compute. reflexivity.
  - apply binary64_differ; vm_compute; reflexivity.
Qed.
